(** * A proof-of-work ledger: [basic_block_gp/blockchain.py]

    The development embeds the [Blockchain] class and the [/mine] handler of
    [blockchain.py] and proves the properties its specification states.

    Layout: library models first ([hashlib.sha256], [str.encode],
    [json.dumps]), then the object store and the methods of the class, then
    the theorems. *)

From Stdlib Require Import ZArith Lia Ascii String DecimalString List.
From stdpp Require Import base tactics option list sorting.

Set Warnings "-register-all".

Local Open Scope Z_scope.

(** ** [hashlib.sha256]

    Bytes and 32-bit words are integers; every word operation writes its
    wrap-around out. The algorithm is the one of FIPS 180-4. *)
Module SHA256.

Definition w32 (x : Z) : Z := x mod 2 ^ 32.

Definition add32 (x y : Z) : Z := w32 (x + y).

Definition rotr (n x : Z) : Z :=
  Z.lor (Z.shiftr x n) (w32 (Z.shiftl x (32 - n))).

Definition shr (n x : Z) : Z := Z.shiftr x n.

Definition not32 (x : Z) : Z := Z.lxor x 4294967295.

Definition Ch (x y z : Z) : Z :=
  Z.lxor (Z.land x y) (Z.land (not32 x) z).

Definition Maj (x y z : Z) : Z :=
  Z.lxor (Z.lxor (Z.land x y) (Z.land x z)) (Z.land y z).

Definition Sigma0 (x : Z) : Z :=
  Z.lxor (Z.lxor (rotr 2 x) (rotr 13 x)) (rotr 22 x).

Definition Sigma1 (x : Z) : Z :=
  Z.lxor (Z.lxor (rotr 6 x) (rotr 11 x)) (rotr 25 x).

Definition sigma0 (x : Z) : Z :=
  Z.lxor (Z.lxor (rotr 7 x) (rotr 18 x)) (shr 3 x).

Definition sigma1 (x : Z) : Z :=
  Z.lxor (Z.lxor (rotr 17 x) (rotr 19 x)) (shr 10 x).

(** The first 64 primes. *)
Definition primes : list Z :=
  [2; 3; 5; 7; 11; 13; 17; 19; 23; 29; 31; 37; 41; 43; 47; 53; 59; 61; 67;
   71; 73; 79; 83; 89; 97; 101; 103; 107; 109; 113; 127; 131; 137; 139; 149;
   151; 157; 163; 167; 173; 179; 181; 191; 193; 197; 199; 211; 223; 227;
   229; 233; 239; 241; 251; 257; 263; 269; 271; 277; 281; 283; 293; 307;
   311].

(** The largest [r] with [lo <= r < hi] and [r ^ 3 <= n], by bisection. *)
Fixpoint cube_root (fuel : nat) (lo hi n : Z) : Z :=
  match fuel with
  | O => lo
  | S fuel' =>
      let mid := (lo + hi) / 2 in
      if mid * mid * mid <=? n then cube_root fuel' mid hi n
      else cube_root fuel' lo mid n
  end.

(** The first 32 bits of the fractional part of the cube root, and of the
    square root, of [p]. *)
Definition frac_cbrt (p : Z) : Z := w32 (cube_root 48 0 (2 ^ 40) (p * 2 ^ 96)).

Definition frac_sqrt (p : Z) : Z := w32 (Z.sqrt (p * 2 ^ 64)).

(** The round constants (FIPS 180-4, 4.2.2): [0x428a2f98], [0x71374491],
    .., [0xc67178f2]. *)
Definition K : list Z := Eval vm_compute in List.map frac_cbrt primes.

(** The eight working variables, also the chaining value. *)
Record regs : Type := Regs {
  ra : Z; rb : Z; rc : Z; rd : Z; re : Z; rf : Z; rg : Z; rh : Z }.

(** The initial hash value (FIPS 180-4, 5.3.3): [0x6a09e667], .., 
    [0x5be0cd19]. *)
Definition H0 : regs :=
  Eval vm_compute in
    Regs (frac_sqrt 2) (frac_sqrt 3) (frac_sqrt 5) (frac_sqrt 7)
         (frac_sqrt 11) (frac_sqrt 13) (frac_sqrt 17) (frac_sqrt 19).

(** Big-endian bytes of a [k]-byte quantity. *)
Fixpoint be_bytes (k : nat) (x : Z) : list Z :=
  match k with
  | O => []
  | S k' => Z.shiftr x (8 * Z.of_nat k') mod 256 :: be_bytes k' x
  end.

Fixpoint be_word (bs : list Z) (acc : Z) : Z :=
  match bs with
  | [] => acc
  | b :: bs' => be_word bs' (acc * 256 + b)
  end.

(** Padding: a [0x80] byte, zeros up to 56 mod 64, the bit length on 8
    bytes. *)
Definition pad (msg : list Z) : list Z :=
  let n := Z.of_nat (length msg) in
  let z := Z.to_nat ((55 - n) mod 64) in
  msg ++ 128 :: replicate z 0 ++ be_bytes 8 (8 * n).

Fixpoint words (n : nat) (bs : list Z) : list Z :=
  match n with
  | O => []
  | S n' => be_word (take 4 bs) 0 :: words n' (drop 4 bs)
  end.

(** Message schedule: [w] holds W[0..t-1]; each step appends W[t]. *)
Fixpoint extend (n : nat) (w : list Z) : list Z :=
  match n with
  | O => w
  | S n' =>
      let t := length w in
      let at_ (i : nat) := nth (t - i) w 0 in
      let x := add32 (add32 (sigma1 (at_ 2%nat)) (at_ 7%nat))
                     (add32 (sigma0 (at_ 15%nat)) (at_ 16%nat)) in
      extend n' (w ++ [x])
  end.

Definition schedule (blk : list Z) : list Z := extend 48 (words 16 blk).

Definition round (s : regs) (kw : Z * Z) : regs :=
  let t1 := add32 (add32 (add32 (rh s) (Sigma1 (re s)))
                         (add32 (Ch (re s) (rf s) (rg s)) (fst kw)))
                  (snd kw) in
  let t2 := add32 (Sigma0 (ra s)) (Maj (ra s) (rb s) (rc s)) in
  Regs (add32 t1 t2) (ra s) (rb s) (rc s)
       (add32 (rd s) t1) (re s) (rf s) (rg s).

Definition compress (h : regs) (blk : list Z) : regs :=
  let s := fold_left round (combine K (schedule blk)) h in
  Regs (add32 (ra h) (ra s)) (add32 (rb h) (rb s))
       (add32 (rc h) (rc s)) (add32 (rd h) (rd s))
       (add32 (re h) (re s)) (add32 (rf h) (rf s))
       (add32 (rg h) (rg s)) (add32 (rh h) (rh s)).

Fixpoint blocks (n : nat) (h : regs) (bs : list Z) : regs :=
  match n with
  | O => h
  | S n' => blocks n' (compress h (take 64 bs)) (drop 64 bs)
  end.

(** [hashlib.sha256(data).digest()]: 32 bytes. *)
Definition digest (msg : list Z) : list Z :=
  let p := pad msg in
  let h := blocks (length p / 64) H0 p in
  be_bytes 4 (ra h) ++ be_bytes 4 (rb h) ++ be_bytes 4 (rc h)
    ++ be_bytes 4 (rd h) ++ be_bytes 4 (re h) ++ be_bytes 4 (rf h)
    ++ be_bytes 4 (rg h) ++ be_bytes 4 (rh h).

Definition hexchar (d : Z) : ascii :=
  if d <? 10 then ascii_of_nat (Z.to_nat (48 + d))
  else ascii_of_nat (Z.to_nat (87 + d)).

(** [bytes.hex()]: two lowercase hexadecimal digits per byte. *)
Fixpoint hex (bs : list Z) : string :=
  match bs with
  | [] => EmptyString
  | b :: bs' =>
      String (hexchar (b / 16 mod 16)) (String (hexchar (b mod 16)) (hex bs'))
  end.

(** [hashlib.sha256(data).hexdigest()]. *)
Definition hexdigest (msg : list Z) : string := hex (digest msg).

End SHA256.

Local Open Scope string_scope.
Local Open Scope Z_scope.

(** ** Python strings

    A [str] is modelled by a [string] whose characters are the code points
    0..255 of the text. *)

(** [str.encode()]: UTF-8. Code points below 128 take one byte, the others
    of this range two. *)
Definition utf8 (c : Z) : list Z :=
  if c <? 128 then [c]
  else [Z.lor 192 (Z.shiftr c 6); Z.lor 128 (Z.land c 63)]%list.

Fixpoint encode (s : string) : list Z :=
  match s with
  | EmptyString => []
  | String c s' => (utf8 (Z.of_N (N_of_ascii c)) ++ encode s')%list
  end.

(** [str(n)] for an [int]: decimal digits, a minus sign when negative. *)
Definition str_int (z : Z) : string := NilZero.string_of_int (Z.to_int z).

(** [s[:n]]. *)
Definition slice_to (n : nat) (s : string) : string := substring 0 n s.

(** ** [json.dumps]

    Default separators [", "] and [": "], [ensure_ascii=True]. *)

Definition dquote : ascii := ascii_of_nat 34.
Definition backslash : ascii := ascii_of_nat 92.

Definition hex4 (n : Z) : string :=
  String (SHA256.hexchar (n / 4096 mod 16))
    (String (SHA256.hexchar (n / 256 mod 16))
      (String (SHA256.hexchar (n / 16 mod 16))
        (String (SHA256.hexchar (n mod 16)) EmptyString))).

(** One character of [py_encode_basestring_ascii]: the short escapes of
    [ESCAPE_DCT], printable ASCII as it is, anything else as [\uXXXX]. *)
Definition escape_char (c : ascii) : string :=
  let n := Z.of_N (N_of_ascii c) in
  if n =? 34 then String backslash (String dquote EmptyString)
  else if n =? 92 then String backslash (String backslash EmptyString)
  else if n =? 10 then String backslash "n"
  else if n =? 13 then String backslash "r"
  else if n =? 9 then String backslash "t"
  else if n =? 8 then String backslash "b"
  else if n =? 12 then String backslash "f"
  else if (32 <=? n) && (n <=? 126) then String c EmptyString
  else String backslash (String "u" (hex4 n)).

Fixpoint escape (s : string) : string :=
  match s with
  | EmptyString => EmptyString
  | String c s' => escape_char c ++ escape s'
  end.

Definition encode_basestring_ascii (s : string) : string :=
  String dquote (escape s ++ String dquote EmptyString).

(** [sep.join(parts)]. *)
Fixpoint join (sep : string) (parts : list string) : string :=
  match parts with
  | [] => EmptyString
  | [p] => p
  | p :: ps => p ++ sep ++ join sep ps
  end.

(** [sorted(dct.items())] on a dict with string keys: keys are unique in a
    dict, so the order of the pairs is the order of their keys. *)
Fixpoint insert_item {A : Type} (x : string * A) (l : list (string * A))
  : list (string * A) :=
  match l with
  | [] => [x]
  | y :: l' =>
      if String.leb (fst x) (fst y) then x :: l else y :: insert_item x l'
  end.

Definition sorted_items {A : Type} (l : list (string * A))
  : list (string * A) :=
  foldr insert_item [] l.

(** The order [sorted] puts the items in. *)
Definition key_le {A : Type} (x y : string * A) : Prop :=
  String.leb (fst x) (fst y) = true.

(** ** Results of a call: a value or an exception *)

Inductive exn : Type := IndexError.

Inductive outcome (A : Type) : Type :=
| Ret (a : A)
| Raise (e : exn).
Arguments Ret {A} a.
Arguments Raise {A} e.

(** The characters of [bytes.hex()]. *)
Definition lower_hex (c : ascii) : bool :=
  let n := Z.of_N (N_of_ascii c) in
  ((48 <=? n) && (n <=? 57)) || ((97 <=? n) && (n <=? 102)).

Section Ledger.

(** Python's [float] and [float.__repr__], which [json.dumps] uses for a
    finite float, are taken as given. *)
Context {float : Type} (float_repr : float -> string).

(** Python values as [json.dumps] sees them; a dict keeps its items in
    insertion order. *)
Inductive json : Type :=
| JNull
| JInt (z : Z)
| JFloat (f : float)
| JStr (s : string)
| JList (l : list json)
| JDict (d : list (string * json)).

Definition render_item (kv : string * string) : string :=
  encode_basestring_ascii (fst kv) ++ ": " ++ snd kv.

(** [json.dumps(o, sort_keys=sort_keys)]. The values of a dict are
    rendered before the items are ordered; the order looks at keys only
    (see [sorted_items_map]). *)
Fixpoint dumps (sort_keys : bool) (o : json) : string :=
  match o with
  | JNull => "null"
  | JInt z => str_int z
  | JFloat f => float_repr f
  | JStr s => encode_basestring_ascii s
  | JList l => "[" ++ join ", " (List.map (dumps sort_keys) l) ++ "]"
  | JDict d =>
      let items :=
        List.map (fun kv : string * json =>
                    (fst kv, dumps sort_keys (snd kv))) d in
      let items := if sort_keys then sorted_items items else items in
      "{" ++ join ", " (List.map render_item items) ++ "}"
  end.

(** ** Objects

    Python lists and dicts are objects: a variable or a field holds a
    reference, and two references to one object see each other's updates.
    The store keeps the list objects that hold transactions and the
    transaction dicts, each under its address. A block dict and the
    [chain] list are never shared, so they are kept by value; what a block
    holds under ['transactions'] is the address of a list object. *)

Definition loc : Type := nat.

(** The values [previous_hash] takes: [None], an [int], a [str]. *)
Inductive value : Type :=
| VNone
| VInt (z : Z)
| VStr (s : string).

Record transaction : Type := Transaction {
  sender : string;
  recipient : string;
  amount : Z }.

Record block : Type := Block {
  index : Z;
  proof : Z;
  timestamp : float;
  transactions : loc;
  previous_hash : value }.

(** [chain] and [current_transactions] are the attributes of the
    [Blockchain] instance; [lists] and [dicts] are the object store. *)
Record state : Type := State {
  chain : list block;
  current_transactions : loc;
  lists : list (list loc);
  dicts : list transaction }.

(** ** Computations: state and exceptions *)

Definition M (A : Type) : Type := state -> outcome A * state.

Definition ret {A : Type} (a : A) : M A := fun s => (Ret a, s).

Definition raise {A : Type} (e : exn) : M A := fun s => (Raise e, s).

Definition bind {A B : Type} (m : M A) (k : A -> M B) : M B :=
  fun s =>
    match m s with
    | (Ret a, s') => k a s'
    | (Raise e, s') => (Raise e, s')
    end.

Notation "x <~ m ;; k" := (bind m (fun x => k))
  (at level 100, m at next level, k at level 200).
Notation "m ;;; k" := (bind m (fun _ => k))
  (at level 100, k at level 200).

Definition get : M state := fun s => (Ret s, s).

(** [[]]: a new, empty list object. *)
Definition new_list : M loc :=
  fun s =>
    (Ret (length (lists s)),
     State (chain s) (current_transactions s)
           (lists s ++ [[]]%list) (dicts s)).

(** [{"sender": .., "recipient": .., "amount": ..}]: a new dict object. *)
Definition new_dict (t : transaction) : M loc :=
  fun s =>
    (Ret (length (dicts s)),
     State (chain s) (current_transactions s)
           (lists s) (dicts s ++ [t])%list).

(** [l.append(x)], in place. *)
Definition list_append (l : loc) (x : loc) : M unit :=
  fun s =>
    (Ret tt,
     State (chain s) (current_transactions s)
           (alter (fun xs => (xs ++ [x])%list) l (lists s)) (dicts s)).

(** [self.current_transactions = l]. *)
Definition set_current_transactions (l : loc) : M unit :=
  fun s => (Ret tt, State (chain s) l (lists s) (dicts s)).

(** [self.chain.append(b)]. *)
Definition chain_append (b : block) : M unit :=
  fun s =>
    (Ret tt,
     State (chain s ++ [b])%list (current_transactions s) (lists s) (dicts s)).

(** ** What a reader of the objects sees *)

(** The items of the list object at [l]. *)
Definition items (s : state) (l : loc) : list loc :=
  default [] (lists s !! l).

(** The transactions a list object holds, in order. *)
Definition contents (s : state) (l : loc) : list transaction :=
  omap (fun r => dicts s !! r) (items s l).

(** The pending queue: what [self.current_transactions] holds. *)
Definition pending (s : state) : list transaction :=
  contents s (current_transactions s).

(** A transaction dict, keys in the order [new_transaction] writes
    them. *)
Definition transaction_dict (t : transaction) : json :=
  JDict [("sender", JStr (sender t));
         ("recipient", JStr (recipient t));
         ("amount", JInt (amount t))].

Definition value_json (v : value) : json :=
  match v with
  | VNone => JNull
  | VInt z => JInt z
  | VStr h => JStr h
  end.

Definition transactions_json (s : state) (l : loc) : json :=
  JList (List.map transaction_dict (contents s l)).

(** A block dict, keys in the order [new_block] writes them. *)
Definition block_items (s : state) (b : block) : list (string * json) :=
  [("index", JInt (index b));
   ("proof", JInt (proof b));
   ("timestamp", JFloat (timestamp b));
   ("transactions", transactions_json s (transactions b));
   ("previous_hash", value_json (previous_hash b))].

Definition block_dict (s : state) (b : block) : json :=
  JDict (block_items s b).

(** ** The class [Blockchain] *)

(** [new_block(self, proof, previous_hash=None)]; [now] is what [time()]
    returns. An omitted [previous_hash] is [None] here. *)
Definition new_block (proof : Z) (previous_hash : option value)
    (now : float) : M block :=
  s <~ get ;;
  let block :=
    Block (Z.of_nat (length (chain s)) + 1) proof now
          (current_transactions s) (default VNone previous_hash) in
  fresh <~ new_list ;;
  set_current_transactions fresh ;;;
  chain_append block ;;;
  ret block.

(** [__init__(self)], from the moment both attributes are bound to their
    empty lists. *)
Definition empty : state := State [] 0%nat [[]]%list [].

Definition init (now : float) : state :=
  snd (new_block 100 (Some (VInt 1)) now empty).

(** [hash(self, block)]. *)
Definition hash (block : json) : string :=
  let block_str := dumps true block in
  let str_bytes := encode block_str in
  SHA256.hexdigest str_bytes.

(** The property [last_block]: [self.chain[-1]]. *)
Definition last_block : M block :=
  fun s =>
    match last (chain s) with
    | Some b => (Ret b, s)
    | None => (Raise IndexError, s)
    end.

(** [valid_proof(block_string, proof)]. *)
Definition valid_proof (block_string : string) (proof : Z) : bool :=
  let guess := encode (block_string ++ str_int proof) in
  let guess_hash := SHA256.hexdigest guess in
  String.eqb (slice_to 6 guess_hash) "000000".

(** [new_transaction(self, sender, recipient, amount)]. *)
Definition new_transaction (sender recipient : string) (amount : Z)
  : M Z :=
  transaction <~ new_dict (Transaction sender recipient amount) ;;
  s <~ get ;;
  list_append (current_transactions s) transaction ;;;
  b <~ last_block ;;
  ret (index b + 1).

(** ** The handler of [POST /mine] *)

(** The JSON body of the request: an object whose ['proof'], when
    present, is an integer and whose ['id'], when present, is a string. *)
Record request : Type := Request {
  req_proof : option Z;
  req_id : option string }.

(** [k in data]. *)
Definition has_key (data : request) (k : string) : bool :=
  if String.eqb k "proof" then bool_decide (is_Some (req_proof data))
  else if String.eqb k "id" then bool_decide (is_Some (req_id data))
  else false.

Definition missing_fields : json :=
  JDict [("message", JStr "Missing required fields.")].

Definition invalid_proof : json :=
  JDict [("message", JStr "Invalid Proof. Unsuccessful Try again.")].

(** The handler returns the response dict and the status code. *)
Definition mine (data : request) (now : float) : M (json * Z) :=
  let req_params := ["proof"; "id"] in
  if negb (forallb (has_key data) req_params) then
    ret (missing_fields, 400)
  else
    match req_proof data, req_id data with
    | Some proof_sent, Some recipient_id =>
        lb <~ last_block ;;
        s <~ get ;;
        let blk_str := dumps true (block_dict s lb) in
        let is_proof_valid := valid_proof blk_str proof_sent in
        if is_proof_valid then
          lb <~ last_block ;;
          s <~ get ;;
          let prev_hash := hash (block_dict s lb) in
          new_blk <~ new_block proof_sent (Some (VStr prev_hash)) now ;;
          new_transaction "0" recipient_id 1 ;;;
          s <~ get ;;
          ret (JDict [("message", JStr "Congratulation! New block is found");
                      ("index", JInt (index new_blk));
                      ("transactions",
                       transactions_json s (transactions new_blk));
                      ("proof", JInt (proof new_blk));
                      ("previous_hash",
                       value_json (previous_hash new_blk))],
               200)
        else ret (invalid_proof, 200)
    | _, _ => ret (missing_fields, 400)
    end.

(** ** The handlers of [GET /chain] and [GET /last_block] *)

(** [full_chain()]: the chain as a list of block dicts and its length. *)
Definition full_chain : M (json * Z) :=
  s <~ get ;;
  ret (JDict [("chain", JList (List.map (block_dict s) (chain s)));
              ("chain_length", JInt (Z.of_nat (length (chain s))))],
       200).

(** [last_block_in_chain()]; it reads [blockchain.chain[-1]] itself. *)
Definition last_block_in_chain : M (json * Z) :=
  s <~ get ;;
  match last (chain s) with
  | Some lb => ret (JDict [("last_block", block_dict s lb)], 200)
  | None => raise IndexError
  end.

(** ** Runs of the engine *)

(** The calls a client can make. *)
Inductive call : Type :=
| CallNewBlock (proof : Z) (previous_hash : option value) (now : float)
| CallNewTransaction (sender recipient : string) (amount : Z)
| CallMine (data : request) (now : float).

Definition exec (c : call) (s : state) : state :=
  match c with
  | CallNewBlock p h now => snd (new_block p h now s)
  | CallNewTransaction a b n => snd (new_transaction a b n s)
  | CallMine data now => snd (mine data now s)
  end.

Definition run (cs : list call) (s : state) : state :=
  foldl (fun s c => exec c s) s cs.

Definition is_new_block (c : call) : Prop :=
  match c with
  | CallNewBlock _ _ _ => True
  | _ => False
  end.

(** The states a ledger goes through when, once constructed, blocks are
    only added by [mine]; transactions may be queued in between. *)
Inductive reachable : state -> Prop :=
| reachable_init (now : float) : reachable (init now)
| reachable_mine (s : state) (data : request) (now : float) :
    reachable s -> reachable (snd (mine data now s))
| reachable_new_transaction (s : state) (a b : string) (n : Z) :
    reachable s -> reachable (snd (new_transaction a b n s)).

(** Every address in use is allocated, and no sealed block shares its
    list with the pending queue. *)
Definition well_formed (s : state) : Prop :=
  (current_transactions s < length (lists s))%nat /\
  Forall (Forall (fun r : loc => (r < length (dicts s))%nat)) (lists s) /\
  Forall (fun b : block =>
            (transactions b < length (lists s))%nat /\
            transactions b <> current_transactions s) (chain s).

(** No list object is the list of two blocks, or of a block and the queue,
    and no transaction object is held twice. *)
Definition separated (s : state) : Prop :=
  NoDup ((transactions <$> chain s) ++ [current_transactions s]) /\
  NoDup (mjoin (lists s)).

(** [chain[i].index == i + 1] for every [i]. *)
Definition positional (s : state) : Prop :=
  forall (i : nat) (b : block),
    chain s !! i = Some b -> index b = Z.of_nat i + 1.

(** ** The canonical text of a block

    Written after the specification: keys in lexicographic order, items
    separated by [", "], a key from its value by [": "]. *)

Definition key (k : string) : string := encode_basestring_ascii k ++ ": ".

Definition canonical_transaction (t : transaction) : string :=
  "{" ++ key "amount" ++ str_int (amount t) ++ ", "
      ++ key "recipient" ++ encode_basestring_ascii (recipient t) ++ ", "
      ++ key "sender" ++ encode_basestring_ascii (sender t) ++ "}".

Definition canonical_value (v : value) : string :=
  match v with
  | VNone => "null"
  | VInt z => str_int z
  | VStr h => encode_basestring_ascii h
  end.

Definition canonical_block (s : state) (b : block) : string :=
  "{" ++ key "index" ++ str_int (index b) ++ ", "
      ++ key "previous_hash" ++ canonical_value (previous_hash b) ++ ", "
      ++ key "proof" ++ str_int (proof b) ++ ", "
      ++ key "timestamp" ++ float_repr (timestamp b) ++ ", "
      ++ key "transactions" ++ "["
      ++ join ", " (List.map canonical_transaction
                      (contents s (transactions b)))
      ++ "]" ++ "}".

End Ledger.

(** ** A concrete ledger

    Floats whose value is a whole number below 10^16 print as that number
    followed by [.0]; the timestamps below are of this kind. *)

Definition whole_repr (z : Z) : string := str_int z ++ ".0".

(** Writes a text with apostrophes in place of its double quotes. *)
Definition apos (s : string) : string :=
  string_of_list_ascii
    (List.map (fun c => if Ascii.eqb c "'" then dquote else c)
              (list_ascii_of_string s)).

Definition fresh : state := init 1572854400.

Definition first_request : request := Request (Some 393220) (Some "node123").

Definition second_request : request :=
  Request (Some 14784253) (Some "node123").

Definition genesis : block := Block 1 100 1572854400 0%nat (VInt 1).

Definition second_block : block :=
  Block 2 393220 1572854460 1%nat
    (VStr "8fb2cc7a655b254ad7117d6e7a9ed0055b1de06d9231b664c21446ff9b469242").

Definition third_block : block :=
  Block 3 14784253 1572854520 2%nat
    (VStr "20fd1b99e2b1050d1f56a34f01f8400453fd2bd2700aa6d16c1bf657e1fb4888").

(** The ledger after the first request was served at 1572854460, and after
    the second was served at 1572854520 (see [mine_first] and
    [mine_second]). *)
Definition after_first : state :=
  State [genesis; second_block] 2%nat [[]; []; [0%nat]]%list
        [Transaction "0" "node123" 1].

Definition after_second : state :=
  State [genesis; second_block; third_block] 3%nat
        [[]; []; [0%nat]; [1%nat]]%list
        [Transaction "0" "node123" 1; Transaction "0" "node123" 1].

Definition genesis_text : string :=
  apos "{'index': 1, 'previous_hash': 1, 'proof': 100, 'timestamp': 1572854400.0, 'transactions': []}".

(** * Properties *)

(** ** The digest *)

Example round_constants :
  nth 0 SHA256.K 0 = 0x428a2f98 /\ nth 1 SHA256.K 0 = 0x71374491 /\
  nth 63 SHA256.K 0 = 0xc67178f2 /\ length SHA256.K = 64%nat.
Proof. repeat split. Qed.

Example initial_hash :
  SHA256.ra SHA256.H0 = 0x6a09e667 /\ SHA256.rh SHA256.H0 = 0x5be0cd19.
Proof. split; reflexivity. Qed.

Example sha256_abc :
  SHA256.hexdigest [97; 98; 99]
  = "ba7816bf8f01cfea414140de5dae2223b00361a396177a9cb410ff61f20015ad".
Proof. vm_compute. reflexivity. Qed.

Example sha256_empty :
  SHA256.hexdigest []
  = "e3b0c44298fc1c149afbf4c8996fb92427ae41e4649b934ca495991b7852b855".
Proof. vm_compute. reflexivity. Qed.

(** A message of three blocks once padded. *)
Example sha256_long :
  SHA256.hexdigest (replicate 56 97 ++ replicate 70 98)
  = "ec412d9d583d8c406d5612ad47573dce025f9886db00415b0adf439ad2ecc010".
Proof. vm_compute. reflexivity. Qed.

Lemma length_be_bytes (k : nat) (x : Z) : length (SHA256.be_bytes k x) = k.
Proof. induction k as [|k IH]; simpl; [reflexivity | by rewrite IH]. Qed.

Lemma length_digest (msg : list Z) : length (SHA256.digest msg) = 32%nat.
Proof.
  unfold SHA256.digest. cbv zeta.
  rewrite !length_app, !length_be_bytes. reflexivity.
Qed.

Lemma length_hex (bs : list Z) :
  String.length (SHA256.hex bs) = (2 * length bs)%nat.
Proof. induction bs as [|b bs IH]; simpl; [reflexivity | rewrite IH; lia]. Qed.

Lemma length_hexdigest (msg : list Z) :
  String.length (SHA256.hexdigest msg) = 64%nat.
Proof. unfold SHA256.hexdigest. by rewrite length_hex, length_digest. Qed.

Lemma hexchar_lower (d : Z) : 0 <= d < 16 -> lower_hex (SHA256.hexchar d) = true.
Proof.
  intros Hd.
  assert (d = 0 \/ d = 1 \/ d = 2 \/ d = 3 \/ d = 4 \/ d = 5 \/ d = 6 \/ d = 7
          \/ d = 8 \/ d = 9 \/ d = 10 \/ d = 11 \/ d = 12 \/ d = 13 \/ d = 14
          \/ d = 15) as Hcases by lia.
  repeat (destruct Hcases as [-> | Hcases]; [reflexivity|]).
  by subst.
Qed.

Lemma hex_lower (bs : list Z) :
  Forall (fun c => lower_hex c = true) (list_ascii_of_string (SHA256.hex bs)).
Proof.
  induction bs as [|b bs IH]; simpl; [constructor|].
  repeat constructor; [apply hexchar_lower, Z.mod_pos_bound; lia .. | exact IH].
Qed.

(** ** Slices *)

Lemma append_assoc (a b c : string) : (a ++ b) ++ c = a ++ b ++ c.
Proof. induction a as [|x a IH]; simpl; [done|]. by rewrite IH. Qed.

Lemma slice_six_zeros (h : string) :
  (6 <= String.length h)%nat ->
  String.eqb (slice_to 6 h) "000000" = true <->
  forall i : nat, (i < 6)%nat -> String.get i h = Some "0"%char.
Proof.
  intros Hlen. unfold slice_to.
  do 6 (destruct h as [|? h]; [simpl in Hlen; lia|]).
  cbn [substring]. rewrite String.eqb_eq. split.
  - intros [= -> -> -> -> -> ->] i Hi.
    do 6 (destruct i as [|i]; [reflexivity|]). lia.
  - intros Hget.
    pose proof (Hget 0%nat ltac:(lia)) as H0.
    pose proof (Hget 1%nat ltac:(lia)) as H1.
    pose proof (Hget 2%nat ltac:(lia)) as H2.
    pose proof (Hget 3%nat ltac:(lia)) as H3.
    pose proof (Hget 4%nat ltac:(lia)) as H4.
    pose proof (Hget 5%nat ltac:(lia)) as H5.
    cbn [String.get] in *. simplify_eq.
    by destruct h.
Qed.

(** C1. [valid_proof(s, p)] is true exactly when the lowercase hexadecimal
    SHA-256 digest of the bytes of [s] followed, with no separator, by the
    decimal text of [p] has the character [0] at each of its first six
    positions. *)
Theorem valid_proof_spec (s : string) (p : Z) :
  valid_proof s p = true <->
  forall i : nat, (i < 6)%nat ->
    String.get i (SHA256.hexdigest (encode (s ++ str_int p))) = Some "0"%char.
Proof.
  unfold valid_proof. apply slice_six_zeros.
  rewrite length_hexdigest. lia.
Qed.

Example valid_proof_true : valid_proof genesis_text 393220 = true.
Proof. vm_compute. reflexivity. Qed.

Example valid_proof_false : valid_proof genesis_text 42 = false.
Proof. vm_compute. reflexivity. Qed.

(** ** The order of keys *)

Lemma string_leb_trans (s1 s2 s3 : string) :
  String.leb s1 s2 = true -> String.leb s2 s3 = true -> String.leb s1 s3 = true.
Proof.
  unfold String.leb. revert s2 s3.
  induction s1 as [|c1 s1 IH]; intros [|c2 s2] [|c3 s3]; simpl; try done.
  unfold Ascii.compare.
  destruct (N.compare_spec (N_of_ascii c1) (N_of_ascii c2)) as [E12|L12|G12];
    destruct (N.compare_spec (N_of_ascii c2) (N_of_ascii c3)) as [E23|L23|G23];
    destruct (N.compare_spec (N_of_ascii c1) (N_of_ascii c3)) as [E13|L13|G13];
    try done; try lia.
  apply IH.
Qed.

#[local] Instance key_le_trans {A : Type} : Transitive (@key_le A).
Proof. intros x y z. unfold key_le. apply string_leb_trans. Qed.

Lemma insert_item_perm {A : Type} (x : string * A) (l : list (string * A)) :
  insert_item x l ≡ₚ x :: l.
Proof.
  induction l as [|y l IH]; simpl; [done|].
  destruct (String.leb (fst x) (fst y)); [done|].
  rewrite IH. apply Permutation_swap.
Qed.

Lemma sorted_items_perm {A : Type} (l : list (string * A)) :
  sorted_items l ≡ₚ l.
Proof.
  induction l as [|x l IH]; simpl; [done|].
  unfold sorted_items in *. simpl. by rewrite insert_item_perm, IH.
Qed.

Lemma insert_item_sorted {A : Type} (x : string * A) (l : list (string * A)) :
  Sorted key_le l -> Sorted key_le (insert_item x l).
Proof.
  induction 1 as [|y l Hl IH Hy]; simpl; [by repeat constructor|].
  destruct (String.leb (fst x) (fst y)) eqn:Hxy.
  - by repeat constructor.
  - constructor; [exact IH|].
    assert (key_le y x) as Hyx.
    { unfold key_le. destruct (String.leb_total (fst x) (fst y)); congruence. }
    destruct Hy as [|z l Hyz]; simpl; [by constructor|].
    destruct (String.leb (fst x) (fst z)); by constructor.
Qed.

Lemma sorted_items_sorted {A : Type} (l : list (string * A)) :
  Sorted key_le (sorted_items l).
Proof.
  induction l as [|x l IH]; [constructor|].
  unfold sorted_items in *. simpl. by apply insert_item_sorted.
Qed.

Lemma unique_keys {A : Type} (l : list (string * A)) (x y : string * A) :
  NoDup (l.*1) -> x ∈ l -> y ∈ l -> fst x = fst y -> x = y.
Proof.
  induction l as [|z l IH]; simpl; intros Hnd Hx Hy Hxy; [by inv Hx|].
  apply NoDup_cons in Hnd as [Hz Hnd].
  apply elem_of_cons in Hx as [->|Hx]; apply elem_of_cons in Hy as [->|Hy].
  - done.
  - destruct Hz. rewrite Hxy. apply list_elem_of_fmap. by exists y.
  - destruct Hz. rewrite <- Hxy. apply list_elem_of_fmap. by exists x.
  - by apply IH.
Qed.

(** Two dicts with the same items, however ordered, have one sorted list
    of items. *)
Lemma sorted_items_unique {A : Type} (l1 l2 : list (string * A)) :
  NoDup (l1.*1) -> l1 ≡ₚ l2 -> sorted_items l1 = sorted_items l2.
Proof.
  intros Hnd Hperm.
  apply (Sorted_unique_strong key_le); try apply sorted_items_sorted.
  - intros x y Hx Hy Hxy Hyx.
    apply (unique_keys l1); [done| | |].
    + by rewrite <- (sorted_items_perm l1).
    + by rewrite Hperm, <- (sorted_items_perm l2).
    + by apply String.leb_antisym.
  - by rewrite !sorted_items_perm.
Qed.

(** Ordering the items looks at their keys only: rendering the values
    first and ordering the items first give the same list. *)
Lemma insert_item_map {A B : Type} (f : A -> B) (x : string * A)
    (l : list (string * A)) :
  insert_item (fst x, f (snd x)) (List.map (fun kv => (fst kv, f (snd kv))) l)
  = List.map (fun kv => (fst kv, f (snd kv))) (insert_item x l).
Proof.
  induction l as [|y l IH]; simpl; [done|].
  destruct (String.leb (fst x) (fst y)); simpl; [done|]. by rewrite IH.
Qed.

Lemma sorted_items_map {A B : Type} (f : A -> B) (l : list (string * A)) :
  sorted_items (List.map (fun kv => (fst kv, f (snd kv))) l)
  = List.map (fun kv => (fst kv, f (snd kv))) (sorted_items l).
Proof.
  induction l as [|x l IH]; [done|].
  unfold sorted_items in *. simpl. by rewrite IH, insert_item_map.
Qed.

Lemma keys_map {A B : Type} (f : A -> B) (l : list (string * A)) :
  (List.map (fun kv => (fst kv, f (snd kv))) l).*1 = l.*1.
Proof. induction l as [|x l IH]; csimpl; [done|]. by f_equal. Qed.

Lemma sorted_block_items {A : Type} (i p t x h : A) :
  sorted_items [("index", i); ("proof", p); ("timestamp", t);
                ("transactions", x); ("previous_hash", h)]
  = [("index", i); ("previous_hash", h); ("proof", p); ("timestamp", t);
     ("transactions", x)].
Proof. reflexivity. Qed.

Lemma sorted_transaction_items {A : Type} (s r a : A) :
  sorted_items [("sender", s); ("recipient", r); ("amount", a)]
  = [("amount", a); ("recipient", r); ("sender", s)].
Proof. reflexivity. Qed.

Section Properties.

Context {float : Type} (float_repr : float -> string).

Abbreviation json := (@json float).
Abbreviation state := (@state float).
Abbreviation block := (@block float).

(** ** Serialization and hashing *)

Lemma dumps_dict (d : list (string * json)) :
  dumps float_repr true (JDict d)
  = "{" ++ join ", "
             (List.map render_item
                (sorted_items
                   (List.map (fun kv => (fst kv, dumps float_repr true (snd kv)))
                             d)))
        ++ "}".
Proof. reflexivity. Qed.

Lemma dumps_insertion_order (d1 d2 : list (string * json)) :
  NoDup (d1.*1) -> d1 ≡ₚ d2 ->
  dumps float_repr true (JDict d1) = dumps float_repr true (JDict d2).
Proof.
  intros Hnd Hperm. rewrite !dumps_dict. do 4 f_equal.
  apply sorted_items_unique.
  - by rewrite keys_map.
  - by apply Permutation_map.
Qed.

Lemma join_map_ext {A : Type} (f g : A -> string) (sep : string)
    (l : list A) :
  (forall x, f x = g x) ->
  join sep (List.map f l) = join sep (List.map g l).
Proof.
  intros Hfg. induction l as [|x l IH]; simpl; [done|].
  rewrite Hfg. destruct l as [|y l]; [done|].
  simpl in IH. simpl. by rewrite IH.
Qed.

Lemma dumps_transaction (t : transaction) :
  dumps float_repr true (transaction_dict t) = canonical_transaction t.
Proof.
  unfold transaction_dict. rewrite dumps_dict. cbn [List.map fst snd].
  rewrite sorted_transaction_items.
  unfold canonical_transaction, key, render_item.
  cbn [join List.map fst snd dumps].
  by rewrite !append_assoc.
Qed.

Lemma dumps_value (v : value) :
  dumps float_repr true (value_json v) = canonical_value v.
Proof. by destruct v. Qed.

Lemma dumps_block (s : state) (b : block) :
  dumps float_repr true (block_dict s b) = canonical_block float_repr s b.
Proof.
  unfold block_dict, block_items. rewrite dumps_dict. cbn [List.map fst snd].
  rewrite sorted_block_items, dumps_value.
  unfold transactions_json, canonical_block.
  change (dumps float_repr true (JList ?l))
    with ("[" ++ join ", " (List.map (dumps float_repr true) l) ++ "]").
  rewrite List.map_map, (join_map_ext _ canonical_transaction)
    by apply dumps_transaction.
  unfold key, render_item. cbn [join List.map fst snd dumps].
  by rewrite !append_assoc.
Qed.

Lemma block_keys_nodup (s : state) (b : block) :
  NoDup ((block_items s b).*1).
Proof.
  unfold block_items. csimpl.
  repeat (apply NoDup_cons; split;
          [rewrite ?elem_of_cons, elem_of_nil; intuition discriminate|]).
  apply NoDup_nil_2.
Qed.

(** C2. [hash] is a function of the dict it is given and of nothing else.
    Whatever the order in which the fields of a block were inserted, and
    in whatever state the block is read as long as its transaction list
    holds the same transactions, the result is one string: the SHA-256
    digest of the canonical text of the block (keys in lexicographic
    order), written as 64 lowercase hexadecimal characters. *)
Theorem hash_block_deterministic (s : state) (b : block)
    (d : list (string * json)) :
  d ≡ₚ block_items s b ->
  hash float_repr (JDict d) = hash float_repr (block_dict s b) /\
  hash float_repr (block_dict s b)
  = SHA256.hexdigest (encode (canonical_block float_repr s b)) /\
  (forall s' : state,
      contents s' (transactions b) = contents s (transactions b) ->
      hash float_repr (block_dict s' b) = hash float_repr (block_dict s b)) /\
  String.length (hash float_repr (JDict d)) = 64%nat /\
  Forall (fun c => lower_hex c = true)
         (list_ascii_of_string (hash float_repr (JDict d))).
Proof.
  intros Hperm. split; [|split; [|split; [|split]]].
  - unfold hash, block_dict.
    by rewrite (dumps_insertion_order (block_items s b) d)
      by (apply block_keys_nodup || done).
  - unfold hash. by rewrite dumps_block.
  - intros s' Hsame. unfold hash. rewrite !dumps_block.
    unfold canonical_block. by rewrite Hsame.
  - apply length_hexdigest.
  - apply hex_lower.
Qed.

(** ** Construction and block creation *)

Lemma new_block_eq (s : state) (p : Z) (h : option value) (now : float) :
  new_block p h now s
  = (Ret (Block (Z.of_nat (length (chain s)) + 1) p now
                (current_transactions s) (default VNone h)),
     State (chain s ++ [Block (Z.of_nat (length (chain s)) + 1) p now
                              (current_transactions s) (default VNone h)])
           (length (lists s)) (lists s ++ [[]]) (dicts s)).
Proof. reflexivity. Qed.

(** C4. A freshly constructed ledger holds one block, the genesis block:
    its index is 1, its transaction list is empty and its
    [previous_hash] is the integer 1, which is not a string. *)
Theorem genesis_block (now : float) :
  exists g : block,
    chain (init now) = [g] /\
    index g = 1 /\
    contents (init now) (transactions g) = [] /\
    previous_hash g = VInt 1 /\
    (forall h : string, previous_hash g <> VStr h).
Proof. eexists. repeat split; done. Qed.

Lemma contents_new_block (s : state) (p : Z) (h : option value)
    (now : float) (l : loc) :
  contents (snd (new_block p h now s)) l = contents s l.
Proof.
  rewrite new_block_eq. unfold contents, items. simpl. f_equal.
  destruct (decide (l < length (lists s))%nat) as [Hl|Hl].
  - by rewrite lookup_app_l.
  - rewrite lookup_app_r by lia.
    rewrite (lookup_ge_None_2 (lists s)) by lia.
    by destruct (l - length (lists s))%nat as [|[|?]].
Qed.

Lemma items_new_block_fresh (s : state) (p : Z) (h : option value)
    (now : float) :
  items (snd (new_block p h now s)) (length (lists s)) = [].
Proof.
  rewrite new_block_eq. unfold items. simpl.
  by rewrite lookup_app_r, Nat.sub_diag by lia.
Qed.

Lemma pending_new_block (s : state) (p : Z) (h : option value)
    (now : float) :
  pending (snd (new_block p h now s)) = [].
Proof.
  unfold pending, contents.
  replace (current_transactions (snd (new_block p h now s)))
    with (length (lists s)) by by rewrite new_block_eq.
  by rewrite items_new_block_fresh.
Qed.

(** C5. [new_block(proof, previous_hash)] builds the block with index
    [len(chain) + 1], the given proof and previous hash, and as
    transactions the very list object that was the pending queue; it
    binds the queue to a new empty list, appends the block to the chain
    and returns it. Afterwards the queue is empty and the block holds
    what was queued at the moment of the call. *)
Theorem new_block_spec (s : state) (p : Z) (h : value) (now : float) :
  exists (b : block) (s' : state),
    new_block p (Some h) now s = (Ret b, s') /\
    index b = Z.of_nat (length (chain s)) + 1 /\
    timestamp b = now /\
    proof b = p /\
    previous_hash b = h /\
    transactions b = current_transactions s /\
    contents s' (transactions b) = pending s /\
    chain s' = (chain s ++ [b])%list /\
    pending s' = [].
Proof.
  eexists _, _. split; [apply new_block_eq|].
  repeat split.
  - cbn [transactions]. unfold pending.
    by rewrite <- (contents_new_block s p (Some h) now), new_block_eq.
  - exact (pending_new_block s p (Some h) now).
Qed.

(** C10. [previous_hash] may be left out of [new_block]; the block then
    carries [None], which is neither a string nor the integer 1 of the
    genesis block. *)
Theorem new_block_default (s : state) (p : Z) (now : float) :
  exists (b : block) (s' : state),
    new_block p None now s = (Ret b, s') /\
    chain s' = (chain s ++ [b])%list /\
    previous_hash b = VNone /\
    (forall h : string, previous_hash b <> VStr h) /\
    previous_hash b <> VInt 1.
Proof.
  eexists _, _. split; [apply new_block_eq|]. repeat split; done.
Qed.

(** ** Queueing a transaction *)

Lemma new_transaction_eq (s : state) (a b : string) (n : Z) :
  new_transaction a b n s
  = (match last (chain s) with
     | Some lb => Ret (index lb + 1)
     | None => Raise IndexError
     end,
     State (chain s) (current_transactions s)
           (alter (fun xs => (xs ++ [length (dicts s)])%list)
                  (current_transactions s) (lists s))
           (dicts s ++ [Transaction a b n])).
Proof.
  unfold new_transaction, bind, new_dict, get, list_append, last_block, ret.
  simpl. by destruct (last (chain s)).
Qed.

Lemma omap_lookup_snoc (ds : list transaction) (t : transaction)
    (l : list loc) :
  Forall (fun r : loc => (r < length ds)%nat) l ->
  omap (fun r => (ds ++ [t])%list !! r) l = omap (fun r => ds !! r) l.
Proof.
  induction 1 as [|r l Hr _ IH]; csimpl; [done|].
  by rewrite IH, lookup_app_l.
Qed.

Lemma well_formed_items (s : state) (l : loc) :
  well_formed s ->
  Forall (fun r : loc => (r < length (dicts s))%nat) (items s l).
Proof.
  intros (_ & Hrefs & _). unfold items.
  destruct (lists s !! l) as [xs|] eqn:Hl; simpl; [|constructor].
  by apply (Forall_lookup_1 _ _ _ _ Hrefs Hl).
Qed.

Lemma items_new_transaction_current (s : state) (a b : string) (n : Z) :
  well_formed s ->
  items (snd (new_transaction a b n s)) (current_transactions s)
  = (items s (current_transactions s) ++ [length (dicts s)])%list.
Proof.
  intros (Hcur & _). rewrite new_transaction_eq. unfold items. simpl.
  apply lookup_lt_is_Some in Hcur as [xs Hxs].
  rewrite list_lookup_alter_eq. unfold loc in *. by rewrite Hxs.
Qed.

Lemma items_new_transaction_other (s : state) (a b : string) (n : Z)
    (l : loc) :
  l <> current_transactions s ->
  items (snd (new_transaction a b n s)) l = items s l.
Proof.
  intros Hl. rewrite new_transaction_eq. unfold items. simpl.
  by rewrite list_lookup_alter_ne.
Qed.

Lemma contents_new_transaction (s : state) (a b : string) (n : Z)
    (l : loc) :
  well_formed s -> l <> current_transactions s ->
  contents (snd (new_transaction a b n s)) l = contents s l.
Proof.
  intros Hwf Hl. unfold contents.
  rewrite items_new_transaction_other by done.
  rewrite new_transaction_eq. simpl.
  apply omap_lookup_snoc, well_formed_items, Hwf.
Qed.

Lemma pending_new_transaction (s : state) (a b : string) (n : Z) :
  well_formed s ->
  pending (snd (new_transaction a b n s))
  = (pending s ++ [Transaction a b n])%list.
Proof.
  intros Hwf. unfold pending, contents.
  replace (current_transactions (snd (new_transaction a b n s)))
    with (current_transactions s) by by rewrite new_transaction_eq.
  rewrite items_new_transaction_current by done.
  rewrite new_transaction_eq. cbn [snd dicts].
  rewrite omap_app, omap_lookup_snoc by by apply well_formed_items.
  csimpl. by rewrite lookup_app_r, Nat.sub_diag by lia.
Qed.

(** C9. [new_transaction(sender, recipient, amount)] puts the transaction
    at the end of the pending queue and returns the index of the last
    block plus one; the chain is as it was. *)
Theorem new_transaction_spec (s : state) (a b : string) (n : Z)
    (lb : block) :
  well_formed s ->
  last (chain s) = Some lb ->
  exists s' : state,
    new_transaction a b n s = (Ret (index lb + 1), s') /\
    pending s' = (pending s ++ [Transaction a b n])%list /\
    chain s' = chain s.
Proof.
  intros Hwf Hlast. eexists. split; [|split].
  - rewrite new_transaction_eq, Hlast. reflexivity.
  - rewrite <- (pending_new_transaction s a b n Hwf).
    by rewrite new_transaction_eq.
  - reflexivity.
Qed.

(** ** Well-formed states *)

Lemma well_formed_new_block (s : state) (p : Z) (h : option value)
    (now : float) :
  well_formed s -> well_formed (snd (new_block p h now s)).
Proof.
  intros (Hcur & Hrefs & Hchain). rewrite new_block_eq.
  unfold well_formed. simpl. rewrite length_app. simpl.
  split; [lia|]. split.
  - apply Forall_app. split; [done|]. by repeat constructor.
  - apply Forall_app. split.
    + eapply Forall_impl; [exact Hchain|]. simpl. intros b [??]. lia.
    + repeat constructor; simpl; lia.
Qed.

Lemma well_formed_new_transaction (s : state) (a b : string) (n : Z) :
  well_formed s -> well_formed (snd (new_transaction a b n s)).
Proof.
  intros (Hcur & Hrefs & Hchain). rewrite new_transaction_eq.
  unfold well_formed. simpl. rewrite length_alter, length_app. simpl.
  split; [done|]. split; [|done].
  apply Forall_alter.
  - eapply Forall_impl; [exact Hrefs|]. simpl. intros xs Hxs.
    eapply Forall_impl; [exact Hxs|]. simpl. lia.
  - intros xs Hxs Hold. simpl. apply Forall_app. split.
    + done.
    + repeat constructor. lia.
Qed.

Lemma well_formed_init (now : float) : well_formed (init now).
Proof.
  unfold well_formed, init. rewrite new_block_eq. simpl.
  split; [lia|]. split; repeat constructor; simpl; lia.
Qed.

(** ** The handler *)

Lemma has_all_keys (data : request) :
  forallb (has_key data) ["proof"; "id"]
  = match req_proof data, req_id data with
    | Some _, Some _ => true
    | _, _ => false
    end.
Proof. destruct data as [[p|] [id|]]; reflexivity. Qed.

Lemma mine_missing (s : state) (data : request) (now : float) :
  req_proof data = None \/ req_id data = None ->
  mine float_repr data now s = (Ret (missing_fields, 400), s).
Proof.
  unfold mine. rewrite has_all_keys.
  destruct (req_proof data), (req_id data); intros [?|?]; done.
Qed.

Lemma mine_empty_chain (s : state) (data : request) (now : float) :
  last (chain s) = None -> snd (mine float_repr data now s) = s.
Proof.
  intros Hlast. unfold mine. rewrite has_all_keys.
  destruct (req_proof data), (req_id data); cbn [negb]; try done.
  unfold bind at 1, last_block at 1. by rewrite Hlast.
Qed.

Lemma mine_invalid (s : state) (data : request) (now : float) (p : Z)
    (id : string) (lb : block) :
  req_proof data = Some p -> req_id data = Some id ->
  last (chain s) = Some lb ->
  valid_proof (dumps float_repr true (block_dict s lb)) p = false ->
  mine float_repr data now s = (Ret (invalid_proof, 200), s).
Proof.
  intros Hp Hid Hlast Hbad. unfold mine. rewrite has_all_keys, Hp, Hid.
  cbn [negb].
  unfold bind at 1, last_block at 1. rewrite Hlast.
  unfold bind at 1, get at 1. by rewrite Hbad.
Qed.

Lemma mine_valid (s : state) (data : request) (now : float) (p : Z)
    (id : string) (lb : block) :
  req_proof data = Some p -> req_id data = Some id ->
  last (chain s) = Some lb ->
  valid_proof (dumps float_repr true (block_dict s lb)) p = true ->
  let prev := VStr (hash float_repr (block_dict s lb)) in
  let b := Block (Z.of_nat (length (chain s)) + 1) p now
                 (current_transactions s) prev in
  let s' := snd (new_transaction "0" id 1
                   (snd (new_block p (Some prev) now s))) in
  mine float_repr data now s
  = (Ret (JDict [("message", JStr "Congratulation! New block is found");
                 ("index", JInt (index b));
                 ("transactions", transactions_json s' (transactions b));
                 ("proof", JInt (proof b));
                 ("previous_hash", value_json (previous_hash b))],
          200),
     s').
Proof.
  intros Hp Hid Hlast Hok prev b s'. subst s'.
  rewrite new_block_eq. cbn [snd]. rewrite new_transaction_eq. cbn [snd].
  unfold mine. rewrite has_all_keys, Hp, Hid. cbn [negb].
  unfold bind at 1, last_block at 1. rewrite Hlast.
  unfold bind at 1, get at 1. rewrite Hok.
  unfold bind at 1, last_block at 1. rewrite Hlast.
  unfold bind at 1, get at 1.
  unfold bind at 1. rewrite new_block_eq.
  unfold bind at 1. rewrite new_transaction_eq. cbn [chain].
  rewrite last_snoc. reflexivity.
Qed.

(** A call of the handler leaves the state as it was or seals a block
    and queues the reward. *)
Lemma mine_state (s : state) (data : request) (now : float) :
  snd (mine float_repr data now s) = s \/
  exists (p : Z) (id : string) (lb : block),
    req_proof data = Some p /\ req_id data = Some id /\
    last (chain s) = Some lb /\
    valid_proof (dumps float_repr true (block_dict s lb)) p = true /\
    snd (mine float_repr data now s)
    = snd (new_transaction "0" id 1
             (snd (new_block p
                     (Some (VStr (hash float_repr (block_dict s lb))))
                     now s))).
Proof.
  destruct (req_proof data) as [p|] eqn:Hp;
    [|left; rewrite mine_missing; auto].
  destruct (req_id data) as [id|] eqn:Hid;
    [|left; rewrite mine_missing; auto].
  destruct (last (chain s)) as [lb|] eqn:Hlast;
    [|left; by apply mine_empty_chain].
  destruct (valid_proof (dumps float_repr true (block_dict s lb)) p)
    eqn:Hv.
  - right. exists p, id, lb. repeat split; try done.
    by rewrite (mine_valid s data now p id lb).
  - left. by rewrite (mine_invalid s data now p id lb).
Qed.

Lemma well_formed_mine (s : state) (data : request) (now : float) :
  well_formed s -> well_formed (snd (mine float_repr data now s)).
Proof.
  intros Hwf.
  destruct (mine_state s data now) as [->|(p & id & lb & _ & _ & _ & _ & ->)];
    [done|].
  by apply well_formed_new_transaction, well_formed_new_block.
Qed.

Lemma well_formed_reachable (s : state) :
  reachable float_repr s -> well_formed s.
Proof.
  induction 1.
  - apply well_formed_init.
  - by apply well_formed_mine.
  - by apply well_formed_new_transaction.
Qed.

(** C7. A mine request with a valid proof seals the block first and
    queues the reward afterwards. The reward is a new transaction from
    ["0"] to the submitted id, of amount 1; it is not in the list of the
    returned block, which holds what was pending before the request; it
    is the one entry of the queue the next block will take. The response
    carries the index, the transactions, the proof and the previous hash
    of the new block, with status 200. *)
Theorem mine_reward (s : state) (data : request) (now : float) (p : Z)
    (id : string) (lb : block) :
  well_formed s ->
  req_proof data = Some p -> req_id data = Some id ->
  last (chain s) = Some lb ->
  valid_proof (dumps float_repr true (block_dict s lb)) p = true ->
  exists (b : block) (r : loc) (s' : state),
    mine float_repr data now s
    = (Ret (JDict [("message", JStr "Congratulation! New block is found");
                   ("index", JInt (index b));
                   ("transactions", transactions_json s' (transactions b));
                   ("proof", JInt (proof b));
                   ("previous_hash", value_json (previous_hash b))],
            200),
       s') /\
    chain s' = (chain s ++ [b])%list /\
    index b = Z.of_nat (length (chain s)) + 1 /\
    proof b = p /\
    previous_hash b = VStr (hash float_repr (block_dict s lb)) /\
    dicts s !! r = None /\
    dicts s' !! r = Some (Transaction "0" id 1) /\
    (r ∉ items s' (transactions b)) /\
    contents s' (transactions b) = pending s /\
    items s' (current_transactions s') = [r] /\
    pending s' = [Transaction "0" id 1] /\
    (forall (p' : Z) (h' : option value) (now' : float),
        exists b' : block,
          fst (new_block p' h' now' s') = Ret b' /\
          contents (snd (new_block p' h' now' s')) (transactions b')
          = [Transaction "0" id 1]).
Proof.
  intros Hwf Hp Hid Hlast Hok.
  set (prev := VStr (hash float_repr (block_dict s lb))).
  set (s1 := snd (new_block p (Some prev) now s)).
  assert (well_formed s1) as Hwf1 by by apply well_formed_new_block.
  assert (current_transactions s1 = length (lists s)) as Hcur1
    by (subst s1; by rewrite new_block_eq).
  assert (dicts s1 = dicts s) as Hdicts1
    by (subst s1; by rewrite new_block_eq).
  assert (current_transactions s <> current_transactions s1) as Hne
    by (destruct Hwf as [? _]; lia).
  eexists _, (length (dicts s)), _.
  split; [exact (mine_valid s data now p id lb Hp Hid Hlast Hok)|].
  fold prev s1. cbn [index proof previous_hash transactions].
  assert (pending (snd (new_transaction "0" id 1 s1))
          = [Transaction "0" id 1]) as Hpend.
  { rewrite pending_new_transaction by done. subst s1.
    by rewrite pending_new_block. }
  repeat split.
  - rewrite new_transaction_eq. subst s1. by rewrite new_block_eq.
  - apply lookup_ge_None_2. lia.
  - rewrite new_transaction_eq. cbn [snd dicts]. rewrite Hdicts1.
    by rewrite lookup_app_r, Nat.sub_diag by lia.
  - rewrite items_new_transaction_other by done.
    pose proof (well_formed_items s1 (current_transactions s) Hwf1) as Hall.
    rewrite Hdicts1 in Hall. intros Hin.
    rewrite Forall_forall in Hall. specialize (Hall _ Hin). lia.
  - rewrite contents_new_transaction by done.
    subst s1. by rewrite contents_new_block.
  - replace (current_transactions (snd (new_transaction "0" id 1 s1)))
      with (current_transactions s1) by by rewrite new_transaction_eq.
    rewrite items_new_transaction_current by done.
    rewrite Hcur1, Hdicts1. subst s1.
    by rewrite items_new_block_fresh.
  - exact Hpend.
  - intros p' h' now'. eexists. split; [by rewrite new_block_eq|].
    rewrite contents_new_block. exact Hpend.
Qed.

(** C8. A mine request without ['proof'] or without ['id'] is answered
    with the missing-fields message and status 400; one with both fields
    whose proof fails the leading-zero test is answered with the
    try-again message. In both cases the state of the ledger, chain and
    queue included, is what it was. *)
Theorem mine_rejects (s : state) (data : request) (now : float) :
  (req_proof data = None \/ req_id data = None ->
   mine float_repr data now s
   = (Ret (JDict [("message", JStr "Missing required fields.")], 400), s))
  /\
  (forall (p : Z) (id : string) (lb : block),
      req_proof data = Some p -> req_id data = Some id ->
      last (chain s) = Some lb ->
      valid_proof (dumps float_repr true (block_dict s lb)) p = false ->
      mine float_repr data now s
      = (Ret (JDict [("message",
                      JStr "Invalid Proof. Unsuccessful Try again.")],
              200),
         s)).
Proof.
  split.
  - apply mine_missing.
  - intros p id lb. apply mine_invalid.
Qed.

(** ** Indices *)

Lemma chain_new_block (s : state) (p : Z) (h : option value)
    (now : float) :
  chain (snd (new_block p h now s))
  = (chain s ++ [Block (Z.of_nat (length (chain s)) + 1) p now
                       (current_transactions s) (default VNone h)])%list.
Proof. by rewrite new_block_eq. Qed.

Lemma chain_new_transaction (s : state) (a b : string) (n : Z) :
  chain (snd (new_transaction a b n s)) = chain s.
Proof. by rewrite new_transaction_eq. Qed.

Lemma positional_new_block (s : state) (p : Z) (h : option value)
    (now : float) :
  positional s -> positional (snd (new_block p h now s)).
Proof.
  intros Hpos i b. rewrite chain_new_block.
  intros [Hi|[Hi Hb]]%lookup_app_Some; [by apply Hpos|].
  apply list_lookup_singleton_Some in Hb as [Hz <-]. cbn [index].
  f_equal. lia.
Qed.

Lemma positional_new_transaction (s : state) (a b : string) (n : Z) :
  positional s -> positional (snd (new_transaction a b n s)).
Proof. unfold positional. by rewrite chain_new_transaction. Qed.

Lemma positional_exec (s : state) (c : call) :
  positional s -> positional (exec float_repr c s).
Proof.
  intros Hpos. destruct c as [p h now|a b n|data now]; cbn [exec].
  - by apply positional_new_block.
  - by apply positional_new_transaction.
  - destruct (mine_state s data now)
      as [->|(p & id & lb & _ & _ & _ & _ & ->)]; [done|].
    by apply positional_new_transaction, positional_new_block.
Qed.

Lemma positional_init (now : float) : positional (init now).
Proof.
  unfold init. apply positional_new_block. by intros [|i] b.
Qed.

Lemma positional_indices (s : state) :
  positional s ->
  List.map index (chain s)
  = List.map Z.of_nat (seq 1 (length (chain s))).
Proof.
  intros Hpos. apply list_eq. intros i.
  change (List.map ?f ?l) with (f <$> l).
  rewrite !list_lookup_fmap.
  destruct (chain s !! i) as [b|] eqn:Hb; simpl.
  - rewrite lookup_seq_lt by by eapply lookup_lt_Some.
    simpl. f_equal. rewrite (Hpos i b Hb). lia.
  - by rewrite lookup_seq_ge by by apply lookup_ge_None.
Qed.

Lemma length_run_new_blocks (cs : list call) (s : state) :
  Forall is_new_block cs ->
  length (chain (run float_repr cs s)) = (length (chain s) + length cs)%nat.
Proof.
  intros Hcs. revert s.
  induction Hcs as [|c cs Hc _ IH]; intros s; simpl; [lia|].
  rewrite IH. destruct c as [p h now| |]; try done. cbn [exec].
  rewrite chain_new_block, length_app. simpl. lia.
Qed.

Lemma positional_run (cs : list call) (s : state) :
  positional s -> positional (run float_repr cs s).
Proof.
  revert s. induction cs as [|c cs IH]; intros s Hpos; simpl; [done|].
  by apply IH, positional_exec.
Qed.

(** C6. [chain[i].index == i + 1] is kept by every call of the engine,
    and a fresh ledger on which [new_block] is called [N] times has
    [N + 1] blocks whose indices are 1, 2, .., [N + 1] in this order. *)
Theorem index_invariant :
  (forall (s : state) (c : call),
      positional s -> positional (exec float_repr c s)) /\
  (forall (now : float) (cs : list call),
      Forall is_new_block cs ->
      length (chain (run float_repr cs (init now))) = S (length cs) /\
      List.map index (chain (run float_repr cs (init now)))
      = List.map Z.of_nat (seq 1 (S (length cs)))).
Proof.
  split; [apply positional_exec|].
  intros now cs Hcs.
  assert (length (chain (run float_repr cs (init now))) = S (length cs))
    as Hlen by by rewrite length_run_new_blocks.
  split; [done|].
  rewrite <- Hlen. apply positional_indices, positional_run, positional_init.
Qed.

(** ** Linkage *)

Lemma block_dict_contents (s s' : state) (b : block) :
  contents s' (transactions b) = contents s (transactions b) ->
  block_dict s' b = block_dict s b.
Proof.
  intros Hsame. unfold block_dict, block_items, transactions_json.
  by rewrite Hsame.
Qed.

Lemma sealed_not_current (s : state) (b : block) :
  well_formed s -> b ∈ chain s ->
  transactions b <> current_transactions s.
Proof.
  intros (_ & _ & Hchain) Hb. rewrite Forall_forall in Hchain.
  by destruct (Hchain b Hb).
Qed.

(** Once in the chain, a block reads the same after every call. *)
Lemma block_dict_new_block (s : state) (p : Z) (h : option value)
    (now : float) (b : block) :
  block_dict (snd (new_block p h now s)) b = block_dict s b.
Proof. apply block_dict_contents, contents_new_block. Qed.

Lemma block_dict_new_transaction (s : state) (a c : string) (n : Z)
    (b : block) :
  well_formed s -> b ∈ chain s ->
  block_dict (snd (new_transaction a c n s)) b = block_dict s b.
Proof.
  intros Hwf Hb. apply block_dict_contents, contents_new_transaction;
    [done|by apply sealed_not_current].
Qed.

Lemma block_dict_mine (s : state) (data : request) (now : float)
    (b : block) :
  well_formed s -> b ∈ chain s ->
  block_dict (snd (mine float_repr data now s)) b = block_dict s b.
Proof.
  intros Hwf Hb.
  destruct (mine_state s data now)
    as [->|(p & id & lb & _ & _ & _ & _ & ->)]; [done|].
  rewrite block_dict_new_transaction.
  - apply block_dict_new_block.
  - by apply well_formed_new_block.
  - rewrite chain_new_block. apply elem_of_app. by left.
Qed.

(** C3. In a ledger whose blocks were added by [mine], every block but
    the first was created by a mine request made in a state [s0] whose
    last block was the block right before it, and its [previous_hash] is
    the hash of that block as it was in [s0]; the block before reads the
    same, and so hashes the same, ever after. *)
Theorem chain_linkage (s : state) :
  reachable float_repr s ->
  forall (i : nat) (prev b : block),
    chain s !! i = Some prev -> chain s !! S i = Some b ->
    exists (s0 : state) (data : request) (now : float),
      reachable float_repr s0 /\
      length (chain s0) = S i /\
      last (chain s0) = Some prev /\
      chain (snd (mine float_repr data now s0)) = (chain s0 ++ [b])%list /\
      previous_hash b = VStr (hash float_repr (block_dict s0 prev)) /\
      hash float_repr (block_dict s prev)
      = hash float_repr (block_dict s0 prev).
Proof.
  induction 1 as [now|s data now Hreach IH|s a c n Hreach IH];
    intros i prev b Hprev Hb.
  - by destruct i.
  - pose proof (well_formed_reachable s Hreach) as Hwf.
    destruct (mine_state s data now)
      as [Hsame|(p & id & lb & Hp & Hid & Hlast & Hok & Hstate)].
    { rewrite Hsame in *. by apply IH. }
    assert (chain (snd (mine float_repr data now s))
            = (chain s ++ [Block (Z.of_nat (length (chain s)) + 1) p now
                                 (current_transactions s)
                                 (VStr (hash float_repr (block_dict s lb)))])%list)
      as Hchain
      by by rewrite Hstate, chain_new_transaction, chain_new_block.
    rewrite Hchain in Hprev, Hb.
    apply lookup_app_Some in Hb as [Hb|[Hlen Hb]].
    + assert (chain s !! i = Some prev) as Hprev'.
      { rewrite lookup_app_l in Hprev; [done|].
        apply lookup_lt_Some in Hb. lia. }
      destruct (IH i prev b Hprev' Hb)
        as (s0 & data0 & now0 & ? & ? & ? & ? & ? & Hhash).
      exists s0, data0, now0. repeat split; try done.
      rewrite <- Hhash. f_equal. apply block_dict_mine; [done|].
      by eapply list_elem_of_lookup_2.
    + apply list_lookup_singleton_Some in Hb as [Hi <-].
      assert (length (chain s) = S i) as Hlen' by lia.
      assert (prev = lb) as ->.
      { rewrite last_lookup, Hlen' in Hlast. simpl in Hlast.
        rewrite lookup_app_l in Hprev by lia. congruence. }
      exists s, data, now. repeat split; try done.
      f_equal. apply block_dict_mine; [done|].
      rewrite last_lookup in Hlast. by eapply list_elem_of_lookup_2.
  - pose proof (well_formed_reachable s Hreach) as Hwf.
    rewrite chain_new_transaction in Hprev, Hb.
    destruct (IH i prev b Hprev Hb)
      as (s0 & data0 & now0 & ? & ? & ? & ? & ? & Hhash).
    exists s0, data0, now0. repeat split; try done.
    rewrite <- Hhash. f_equal. apply block_dict_new_transaction; [done|].
    by eapply list_elem_of_lookup_2.
Qed.

End Properties.

(** * The concrete ledger *)

Example fresh_chain : chain fresh = [genesis].
Proof. reflexivity. Qed.

Example genesis_dumps :
  dumps whole_repr true (block_dict fresh genesis) = genesis_text.
Proof. vm_compute. reflexivity. Qed.

Example mine_first :
  snd (mine whole_repr first_request 1572854460 fresh) = after_first.
Proof. vm_compute. reflexivity. Qed.

Example mine_second :
  snd (mine whole_repr second_request 1572854520 after_first) = after_second.
Proof. vm_compute. reflexivity. Qed.

(** The block sealed by the second request holds the reward of the first
    one, a transaction equal in every field to the reward the second
    request queues. *)
Example third_block_contents :
  contents after_second (transactions third_block)
  = [Transaction "0" "node123" 1].
Proof. vm_compute. reflexivity. Qed.

Lemma valid_proof_spec_witness :
  valid_proof genesis_text 393220 = true /\
  String.get 0 (SHA256.hexdigest (encode (genesis_text ++ str_int 393220)))
  = Some "0"%char /\
  String.get 5 (SHA256.hexdigest (encode (genesis_text ++ str_int 393220)))
  = Some "0"%char.
Proof.
  assert (valid_proof genesis_text 393220 = true) as Hvalid
    by (vm_compute; reflexivity).
  pose proof (proj1 (valid_proof_spec genesis_text 393220) Hvalid) as Hget.
  split; [exact Hvalid|]. split; apply Hget; lia.
Defined.

Lemma hash_block_deterministic_witness :
  hash whole_repr (JDict (rev (block_items after_second third_block)))
  = hash whole_repr (block_dict after_second third_block) /\
  String.length
    (hash whole_repr (JDict (rev (block_items after_second third_block))))
  = 64%nat.
Proof.
  destruct (hash_block_deterministic whole_repr after_second third_block
              (rev (block_items after_second third_block)))
    as (H1 & _ & _ & H4 & _).
  - symmetry. apply Permutation_rev.
  - split; [exact H1 | exact H4].
Defined.

Lemma reachable_after_second : reachable whole_repr after_second.
Proof.
  rewrite <- mine_second, <- mine_first.
  apply reachable_mine, reachable_mine, reachable_init.
Qed.

Lemma chain_linkage_witness :
  exists (s0 : state) (data : request) (now : Z),
    reachable whole_repr s0 /\
    last (chain s0) = Some second_block /\
    chain (snd (mine whole_repr data now s0))
    = (chain s0 ++ [third_block])%list /\
    previous_hash third_block
    = VStr (hash whole_repr (block_dict s0 second_block)).
Proof.
  destruct (chain_linkage whole_repr after_second reachable_after_second
              1%nat second_block third_block)
    as (s0 & data & now & H1 & _ & H3 & H4 & H5 & _).
  - vm_compute. reflexivity.
  - vm_compute. reflexivity.
  - exists s0, data, now. repeat split; assumption.
Defined.

Lemma index_invariant_witness :
  positional (exec whole_repr (CallNewBlock 7 None 1572854460) fresh) /\
  List.map index
    (chain (run whole_repr
              [CallNewBlock 7 None 1572854460;
               CallNewBlock 8 (Some (VStr "h")) 1572854520]
              (init 1572854400)))
  = [1; 2; 3].
Proof.
  destruct (index_invariant whole_repr) as [Hstep Hrun]. split.
  - apply Hstep. intros [|i] b Hb.
    + vm_compute in Hb. injection Hb as <-. reflexivity.
    + destruct i; discriminate Hb.
  - destruct (Hrun 1572854400
                [CallNewBlock 7 None 1572854460;
                 CallNewBlock 8 (Some (VStr "h")) 1572854520])
      as [_ Hidx].
    + repeat constructor.
    + exact Hidx.
Defined.

Lemma well_formed_after_first : well_formed after_first.
Proof.
  rewrite <- mine_first. apply well_formed_mine, well_formed_init.
Qed.

Lemma mine_reward_witness :
  exists (b : block) (r : loc) (s' : state),
    chain s' = (chain after_first ++ [b])%list /\
    dicts s' !! r = Some (Transaction "0" "node123" 1) /\
    (r ∉ items s' (transactions b)) /\
    contents s' (transactions b) = pending after_first /\
    pending s' = [Transaction "0" "node123" 1].
Proof.
  destruct (mine_reward whole_repr after_first second_request 1572854520
              14784253 "node123" second_block)
    as (b & r & s' & _ & H1 & _ & _ & _ & _ & H2 & H3 & H4 & _ & H5 & _).
  - exact well_formed_after_first.
  - reflexivity.
  - reflexivity.
  - vm_compute. reflexivity.
  - vm_compute. reflexivity.
  - exists b, r, s'. repeat split; assumption.
Defined.

Lemma mine_rejects_witness :
  mine whole_repr (Request (Some 42) None) 1572854460 fresh
  = (Ret (JDict [("message", JStr "Missing required fields.")], 400), fresh)
  /\
  mine whole_repr (Request (Some 42) (Some "node123")) 1572854460 fresh
  = (Ret (JDict [("message", JStr "Invalid Proof. Unsuccessful Try again.")],
          200),
     fresh).
Proof.
  split.
  - apply (proj1 (mine_rejects whole_repr fresh (Request (Some 42) None)
                    1572854460)).
    right. reflexivity.
  - apply (proj2 (mine_rejects whole_repr fresh
                    (Request (Some 42) (Some "node123")) 1572854460)
             42 "node123" genesis).
    + reflexivity.
    + reflexivity.
    + reflexivity.
    + vm_compute. reflexivity.
Defined.

Lemma new_transaction_spec_witness :
  exists s' : state,
    new_transaction "alice" "bob" 5 after_first = (Ret 3, s') /\
    pending s'
    = [Transaction "0" "node123" 1; Transaction "alice" "bob" 5] /\
    chain s' = chain after_first.
Proof.
  destruct (new_transaction_spec after_first "alice" "bob" 5 second_block)
    as (s' & H1 & H2 & H3).
  - exact well_formed_after_first.
  - vm_compute. reflexivity.
  - exists s'. repeat split; assumption.
Defined.

(** * The engine under any sequence of calls *)

Section Engine.

Context {float : Type} (float_repr : float -> string).

Abbreviation json := (@json float).
Abbreviation state := (@state float).
Abbreviation block := (@block float).
Abbreviation call := (@call float).

Lemma well_formed_exec (s : state) (c : call) :
  well_formed s -> well_formed (exec float_repr c s).
Proof.
  intros Hwf. destruct c as [p h now|a b n|data now]; cbn [exec].
  - by apply well_formed_new_block.
  - by apply well_formed_new_transaction.
  - by apply well_formed_mine.
Qed.

Lemma well_formed_run (cs : list call) (s : state) :
  well_formed s -> well_formed (run float_repr cs s).
Proof.
  revert s. induction cs as [|c cs IH]; intros s Hwf; [done|].
  cbn [run foldl]. by apply IH, well_formed_exec.
Qed.

Lemma well_formed_constructed (now : float) (cs : list call) :
  well_formed (run float_repr cs (init now)).
Proof. apply well_formed_run, well_formed_init. Qed.

Lemma run_snoc (cs : list call) (c : call) (s : state) :
  run float_repr (cs ++ [c]) s = exec float_repr c (run float_repr cs s).
Proof. unfold run. by rewrite foldl_snoc. Qed.

Lemma run_app (cs cs' : list call) (s : state) :
  run float_repr (cs ++ cs') s = run float_repr cs' (run float_repr cs s).
Proof. unfold run. by rewrite foldl_app. Qed.

(** A call leaves the chain as it is or puts one block at its end. *)
Lemma chain_exec (s : state) (c : call) :
  chain (exec float_repr c s) = chain s \/
  exists b : block, chain (exec float_repr c s) = (chain s ++ [b])%list.
Proof.
  destruct c as [p h now|a b n|data now]; cbn [exec].
  - right. eexists. apply chain_new_block.
  - left. apply chain_new_transaction.
  - destruct (mine_state float_repr s data now)
      as [->|(p & id & lb & _ & _ & _ & _ & ->)]; [by left|].
    right. eexists. rewrite chain_new_transaction. apply chain_new_block.
Qed.

Lemma chain_exec_prefix (s : state) (c : call) :
  chain s `prefix_of` chain (exec float_repr c s).
Proof.
  destruct (chain_exec s c) as [->|[b ->]]; [done|]. by apply prefix_app_r.
Qed.

Lemma chain_run_prefix (cs : list call) (s : state) :
  chain s `prefix_of` chain (run float_repr cs s).
Proof.
  revert s. induction cs as [|c cs IH]; intros s; [done|].
  cbn [run foldl]. etrans; [apply (chain_exec_prefix s c)|apply IH].
Qed.

Lemma chain_run_length (cs : list call) (s : state) :
  (length (chain (run float_repr cs s)) <= length (chain s) + length cs)%nat.
Proof.
  revert s. induction cs as [|c cs IH]; intros s; [simpl; lia|].
  cbn [run foldl]. etrans; [apply IH|].
  destruct (chain_exec s c) as [->|[b ->]];
    rewrite ?length_app; simpl; lia.
Qed.

(** X4. No call removes or replaces a block: the chain before a sequence
    of calls is a prefix of the chain after it, and each call adds at most
    one block. *)
Theorem chain_append_only (s : state) (cs : list call) :
  chain s `prefix_of` chain (run float_repr cs s) /\
  (length (chain (run float_repr cs s)) <= length (chain s) + length cs)%nat.
Proof. split; [apply chain_run_prefix | apply chain_run_length]. Qed.

Lemma contents_exec (s : state) (c : call) (b : block) :
  well_formed s -> b ∈ chain s ->
  contents (exec float_repr c s) (transactions b)
  = contents s (transactions b).
Proof.
  intros Hwf Hb.
  assert (transactions b <> current_transactions s) as Hne
    by by apply sealed_not_current.
  destruct c as [p h now|a c n|data now]; cbn [exec].
  - apply contents_new_block.
  - by apply contents_new_transaction.
  - destruct (mine_state float_repr s data now)
      as [->|(p & id & lb & _ & _ & _ & _ & ->)]; [done|].
    rewrite contents_new_transaction.
    + apply contents_new_block.
    + by apply well_formed_new_block.
    + apply sealed_not_current; [by apply well_formed_new_block|].
      rewrite chain_new_block. apply elem_of_app. by left.
Qed.

Lemma contents_run (cs : list call) (s : state) (b : block) :
  well_formed s -> b ∈ chain s ->
  contents (run float_repr cs s) (transactions b)
  = contents s (transactions b).
Proof.
  revert s. induction cs as [|c cs IH]; intros s Hwf Hb; [done|].
  change (run float_repr (c :: cs) s)
    with (run float_repr cs (exec float_repr c s)).
  rewrite IH.
  - by apply contents_exec.
  - by apply well_formed_exec.
  - destruct (chain_exec_prefix s c) as [k ->]. apply elem_of_app. by left.
Qed.

(** X6. A block in the chain of a constructed ledger reads the same,
    fields and transactions, after any further calls. *)
Theorem sealed_block_immutable (now : float) (cs cs' : list call)
    (b : block) :
  b ∈ chain (run float_repr cs (init now)) ->
  b ∈ chain (run float_repr cs' (run float_repr cs (init now))) /\
  block_dict (run float_repr cs' (run float_repr cs (init now))) b
  = block_dict (run float_repr cs (init now)) b.
Proof.
  intros Hb. split.
  - destruct (chain_run_prefix cs' (run float_repr cs (init now))) as [k ->].
    apply elem_of_app. by left.
  - apply block_dict_contents, contents_run;
      [apply well_formed_constructed | done].
Qed.

(** X5. The first block of a constructed ledger stays the genesis block
    whatever is called: index 1, proof 100, the integer 1 as previous hash
    and no transaction. *)
Theorem genesis_persists (now : float) (cs : list call) :
  chain (run float_repr cs (init now)) !! 0%nat
  = Some (Block 1 100 now 0%nat (VInt 1)) /\
  contents (run float_repr cs (init now)) 0%nat = [].
Proof.
  split.
  - destruct (chain_run_prefix cs (init now)) as [k ->]. reflexivity.
  - change 0%nat with (transactions (Block 1 100 now 0%nat (VInt 1))).
    rewrite contents_run; [reflexivity|apply well_formed_init|].
    apply list_elem_of_here.
Qed.

(** ** When the handlers raise *)



Lemma last_constructed (now : float) (cs : list call) :
  is_Some (last (chain (run float_repr cs (init now)))).
Proof.
  apply last_is_Some.
  destruct (chain_run_prefix cs (init now)) as [k ->]. done.
Qed.


(** X3. On a ledger whose chain is empty, [new_transaction] raises the
    [IndexError] of [chain[-1]], but only after it has put the transaction
    at the end of the queue. *)
Theorem new_transaction_empty_chain (s : state) (a b : string) (n : Z) :
  well_formed s -> chain s = [] ->
  fst (new_transaction a b n s) = Raise IndexError /\
  pending (snd (new_transaction a b n s))
  = (pending s ++ [Transaction a b n])%list /\
  chain (snd (new_transaction a b n s)) = [].
Proof.
  intros Hwf Hchain. split; [|split].
  - rewrite new_transaction_eq, Hchain. reflexivity.
  - by apply pending_new_transaction.
  - by rewrite chain_new_transaction.
Qed.

(** X7. [last_block_in_chain] changes nothing and raises exactly when the
    chain is empty; on a constructed ledger it returns, with status 200,
    the block at the end of the chain, whose index is the length of the
    chain. *)
Theorem last_block_in_chain_spec (s : state) :
  snd (last_block_in_chain s) = s /\
  (fst (last_block_in_chain s) = Raise IndexError <-> chain s = []) /\
  (forall (now : float) (cs : list call),
      s = run float_repr cs (init now) ->
      exists lb : block,
        last (chain s) = Some lb /\
        index lb = Z.of_nat (length (chain s)) /\
        fst (last_block_in_chain s)
        = Ret (JDict [("last_block", block_dict s lb)], 200)).
Proof.
  unfold last_block_in_chain, bind, get.
  destruct (last (chain s)) as [lb|] eqn:Hlast; cbn [fst snd ret raise].
  - split; [done|]. split.
    + split; [done|]. intros E. by rewrite E in Hlast.
    + intros now cs ->. exists lb. split; [done|]. split; [|done].
      rewrite last_lookup in Hlast.
      rewrite (positional_run float_repr cs (init now) (positional_init now)
                 _ _ Hlast).
      apply lookup_lt_Some in Hlast. lia.
  - split; [done|]. split.
    + split; [|done]. intros _. by apply last_None.
    + intros now cs ->. destruct (last_constructed now cs) as [lb Hlb].
      congruence.
Qed.

(** ** What [GET /chain] reports *)

Lemma full_chain_eq (s : state) :
  full_chain s
  = (Ret (JDict [("chain", JList (List.map (block_dict s) (chain s)));
                 ("chain_length", JInt (Z.of_nat (length (chain s))))],
          200),
     s).
Proof. reflexivity. Qed.

Lemma block_dicts_run (cs : list call) (s : state) :
  well_formed s ->
  List.map (block_dict (run float_repr cs s)) (chain s)
  = List.map (block_dict s) (chain s).
Proof.
  intros Hwf. apply List.map_ext_in. intros b Hb%list_elem_of_In.
  by apply block_dict_contents, contents_run.
Qed.

(** X8. What [full_chain] listed stays listed: after any further calls
    the response is the earlier list of block dicts, unchanged, followed
    by the dicts of the blocks added since, and [chain_length] is the
    number of entries. The state is not touched. *)
Theorem full_chain_history (now : float) (cs cs' : list call) :
  exists newer : list block,
    chain (run float_repr cs' (run float_repr cs (init now)))
    = (chain (run float_repr cs (init now)) ++ newer)%list /\
    full_chain (run float_repr cs' (run float_repr cs (init now)))
    = (Ret (JDict
              [("chain",
                JList
                  (List.map (block_dict (run float_repr cs (init now)))
                            (chain (run float_repr cs (init now)))
                   ++ List.map
                        (block_dict
                           (run float_repr cs' (run float_repr cs (init now))))
                        newer));
               ("chain_length",
                JInt (Z.of_nat (length (chain (run float_repr cs (init now)))
                                + length newer)))],
            200),
       run float_repr cs' (run float_repr cs (init now))).
Proof.
  set (s := run float_repr cs (init now)).
  destruct (chain_run_prefix cs' s) as [newer Hnewer].
  exists newer. split; [done|].
  rewrite full_chain_eq, Hnewer, List.map_app, length_app.
  rewrite block_dicts_run by apply well_formed_constructed.
  reflexivity.
Qed.

(** X9. On a ledger with a last block, [mine] changes the chain exactly
    when the body has both fields and the proof passes [valid_proof] on
    the text of the last block; the chain then grows by one block, which
    carries the submitted proof. *)
Theorem mine_appends_iff_valid (s : state) (data : request) (now : float)
    (lb : block) :
  last (chain s) = Some lb ->
  (chain (snd (mine float_repr data now s)) <> chain s <->
   exists (p : Z) (id : string),
     req_proof data = Some p /\ req_id data = Some id /\
     valid_proof (dumps float_repr true (block_dict s lb)) p = true) /\
  (chain (snd (mine float_repr data now s)) <> chain s ->
   exists b : block,
     chain (snd (mine float_repr data now s)) = (chain s ++ [b])%list /\
     req_proof data = Some (proof b)).
Proof.
  intros Hlast.
  destruct (mine_state float_repr s data now)
    as [Hsame|(p & id & lb' & Hp & Hid & Hlast' & Hok & Hstate)].
  - rewrite Hsame. split; [|done]. split; [done|].
    intros (p & id & Hp & Hid & Hok).
    rewrite (mine_valid float_repr s data now p id lb) in Hsame by done.
    cbn [snd] in Hsame. apply (f_equal chain) in Hsame.
    rewrite chain_new_transaction, chain_new_block in Hsame.
    apply (f_equal length) in Hsame. rewrite length_app in Hsame.
    simpl in Hsame. lia.
  - assert (lb' = lb) as -> by congruence.
    rewrite Hstate, chain_new_transaction, chain_new_block.
    assert (forall b : block, (chain s ++ [b])%list <> chain s) as Hgrow.
    { intros b E. apply (f_equal length) in E. rewrite length_app in E.
      simpl in E. lia. }
    split.
    + split; [|by intros _]. intros _. by exists p, id.
    + intros _. eexists. split; [done|]. by rewrite Hp.
Qed.

(** ** The queue *)

Lemma pending_run_new_transactions (ts : list transaction) (s : state) :
  well_formed s ->
  pending (run float_repr
             (List.map (fun t => CallNewTransaction
                                   (sender t) (recipient t) (amount t)) ts)
             s)
  = (pending s ++ ts)%list.
Proof.
  revert s. induction ts as [|t ts IH]; intros s Hwf.
  - by rewrite app_nil_r.
  - cbn [List.map].
    change (run float_repr (?c :: ?cs) s)
      with (run float_repr cs (exec float_repr c s)).
    rewrite IH by by apply well_formed_exec.
    cbn [exec]. rewrite pending_new_transaction by done.
    destruct t. by rewrite <- app_assoc.
Qed.

(** X10. Transactions leave the queue in the order they entered it: after
    [new_transaction] was called for each of [ts] in turn on a constructed
    ledger, the queue is what it was followed by [ts], and the next
    [new_block] seals exactly this list, in this order. *)
Theorem queue_is_fifo (now : float) (cs : list call) (ts : list transaction)
    (p : Z) (h : option value) (now' : float) :
  let s := run float_repr cs (init now) in
  let s' := run float_repr
              (List.map (fun t => CallNewTransaction
                                    (sender t) (recipient t) (amount t)) ts)
              s in
  pending s' = (pending s ++ ts)%list /\
  exists b : block,
    fst (new_block p h now' s') = Ret b /\
    contents (snd (new_block p h now' s')) (transactions b)
    = (pending s ++ ts)%list.
Proof.
  intros s s'.
  assert (pending s' = (pending s ++ ts)%list) as Hpending
    by apply pending_run_new_transactions, well_formed_constructed.
  split; [done|]. eexists. split; [by rewrite new_block_eq|].
  rewrite contents_new_block. exact Hpending.
Qed.

(** X11. The index [new_transaction] returns on a constructed ledger is
    the index of the block the next [new_block] creates, and that block
    holds the transaction as its last one. *)
Theorem predicted_index (now : float) (cs : list call) (a b : string)
    (n : Z) (p : Z) (h : option value) (now' : float) :
  let s := run float_repr cs (init now) in
  let s1 := snd (new_transaction a b n s) in
  exists (k : Z) (blk : block),
    fst (new_transaction a b n s) = Ret k /\
    fst (new_block p h now' s1) = Ret blk /\
    index blk = k /\
    contents (snd (new_block p h now' s1)) (transactions blk)
    = (pending s ++ [Transaction a b n])%list.
Proof.
  intros s s1.
  destruct (last_constructed now cs) as [lb Hlast]. fold s in Hlast.
  pose proof (well_formed_constructed now cs) as Hwf. fold s in Hwf.
  exists (index lb + 1). eexists. split; [|split; [|split]].
  - by rewrite new_transaction_eq, Hlast.
  - by rewrite new_block_eq.
  - cbn [index]. subst s1. rewrite chain_new_transaction.
    rewrite last_lookup in Hlast.
    rewrite (positional_run float_repr cs (init now) (positional_init now)
               _ _ Hlast).
    apply lookup_lt_Some in Hlast. fold s in Hlast. lia.
  - rewrite contents_new_block. cbn [transactions].
    subst s1. by apply pending_new_transaction.
Qed.

(** ** No transaction in two blocks *)

Lemma join_alter_snoc (ls : list (list loc)) (i : nat) (r : loc) :
  (i < length ls)%nat ->
  mjoin (alter (fun xs => (xs ++ [r])%list) i ls) ≡ₚ r :: mjoin ls.
Proof.
  revert i. induction ls as [|x ls IH]; intros [|i] Hi; simpl in Hi;
    try lia; csimpl.
  - rewrite <- app_assoc. simpl. by rewrite Permutation_middle.
  - rewrite IH by lia. by rewrite Permutation_middle.
Qed.

Lemma separated_new_block (s : state) (p : Z) (h : option value)
    (now : float) :
  well_formed s -> separated s -> separated (snd (new_block p h now s)).
Proof.
  intros (Hcur & _ & Hchain) [Hlocs Hrefs]. rewrite new_block_eq.
  unfold separated. cbn [snd chain current_transactions lists]. split.
  - rewrite fmap_app. cbn [fmap list_fmap transactions].
    apply NoDup_app. split; [done|]. split; [|apply NoDup_singleton].
    intros l Hl Hfresh%list_elem_of_singleton.
    apply elem_of_app in Hl as [Hl|Hl%list_elem_of_singleton]; [|lia].
    apply list_elem_of_fmap in Hl as (b & Hlb & Hb).
    rewrite Forall_forall in Hchain. destruct (Hchain b Hb). lia.
  - rewrite join_app. csimpl. by rewrite app_nil_r.
Qed.

Lemma separated_new_transaction (s : state) (a b : string) (n : Z) :
  well_formed s -> separated s ->
  separated (snd (new_transaction a b n s)).
Proof.
  intros (Hcur & Hall & _) [Hlocs Hrefs]. rewrite new_transaction_eq.
  unfold separated. cbn [snd chain current_transactions lists].
  split; [done|].
  rewrite join_alter_snoc by done. apply NoDup_cons. split; [|done].
  intros Hin. apply Forall_join in Hall. rewrite Forall_forall in Hall.
  specialize (Hall _ Hin). lia.
Qed.

Lemma separated_exec (s : state) (c : call) :
  well_formed s -> separated s -> separated (exec float_repr c s).
Proof.
  intros Hwf Hsep. destruct c as [p h now|a b n|data now]; cbn [exec].
  - by apply separated_new_block.
  - by apply separated_new_transaction.
  - destruct (mine_state float_repr s data now)
      as [->|(p & id & lb & _ & _ & _ & _ & ->)]; [done|].
    apply separated_new_transaction; [by apply well_formed_new_block|].
    by apply separated_new_block.
Qed.

Lemma separated_constructed (now : float) (cs : list call) :
  separated (run float_repr cs (init now)).
Proof.
  induction cs as [|c cs IH] using rev_ind.
  - unfold init. apply separated_new_block.
    + repeat split; repeat constructor.
    + split; csimpl; [apply NoDup_singleton | apply NoDup_nil_2].
  - rewrite run_snoc. apply separated_exec;
      [apply well_formed_constructed | done].
Qed.

Lemma join_lookup_disjoint (ls : list (list loc)) (l1 l2 : nat)
    (x1 x2 : list loc) (r : loc) :
  NoDup (mjoin ls) -> ls !! l1 = Some x1 -> ls !! l2 = Some x2 ->
  r ∈ x1 -> r ∈ x2 -> l1 = l2.
Proof.
  revert l1 l2. induction ls as [|x ls IH]; intros l1 l2 Hnd H1 H2 Hr1 Hr2;
    [done|].
  csimpl in Hnd. apply NoDup_app in Hnd as (_ & Hdisj & Hnd).
  destruct l1 as [|l1], l2 as [|l2]; simpl in H1, H2; simplify_eq.
  - done.
  - destruct (Hdisj r Hr1). apply list_elem_of_join. exists x2.
    split; [done|]. by eapply list_elem_of_lookup_2.
  - destruct (Hdisj r Hr2). apply list_elem_of_join. exists x1.
    split; [done|]. by eapply list_elem_of_lookup_2.
  - f_equal. by eapply IH.
Qed.

Lemma items_lookup (s : state) (l r : loc) :
  r ∈ items s l -> exists xs, lists s !! l = Some xs /\ r ∈ xs.
Proof.
  unfold items. destruct (lists s !! l) as [xs|]; simpl; [eauto|].
  by intros ?%elem_of_nil.
Qed.

(** X12. On a constructed ledger, whatever was called, no transaction
    object is in the lists of two blocks, and a transaction in the list of
    a block is not in the pending queue. *)
Theorem no_shared_transactions (now : float) (cs : list call) (i : nat)
    (bi : block) (r : loc) :
  chain (run float_repr cs (init now)) !! i = Some bi ->
  r ∈ items (run float_repr cs (init now)) (transactions bi) ->
  (forall (j : nat) (bj : block),
      chain (run float_repr cs (init now)) !! j = Some bj ->
      r ∈ items (run float_repr cs (init now)) (transactions bj) ->
      j = i) /\
  (r ∉ items (run float_repr cs (init now))
         (current_transactions (run float_repr cs (init now)))).
Proof.
  set (s := run float_repr cs (init now)). intros Hbi Hri.
  destruct (separated_constructed now cs) as [Hlocs Hrefs].
  fold s in Hlocs, Hrefs.
  apply items_lookup in Hri as (xi & Hxi & Hri).
  split.
  - intros j bj Hbj (xj & Hxj & Hrj)%items_lookup.
    assert (transactions bj = transactions bi) as Hsame
      by by eapply (join_lookup_disjoint (lists s)).
    apply NoDup_app in Hlocs as (Hlocs & _ & _).
    eapply (NoDup_lookup _ _ _ _ Hlocs).
    + by rewrite list_lookup_fmap, Hbj.
    + rewrite list_lookup_fmap, Hbi. simpl. by rewrite Hsame.
  - intros (xc & Hxc & Hrc)%items_lookup.
    assert (transactions bi = current_transactions s) as Hsame
      by by eapply (join_lookup_disjoint (lists s)).
    apply NoDup_app in Hlocs as (_ & Hdisj & _).
    apply (Hdisj (transactions bi)).
    + apply list_elem_of_fmap. exists bi. split; [done|].
      by eapply list_elem_of_lookup_2.
    + rewrite Hsame. apply list_elem_of_here.
Qed.

(** ** Mined chains *)

(** Two neighbours in a mined chain: the later one was made by a request
    served in a state [s0] whose last block was the earlier one. *)
Lemma mined_pair (s : state) :
  reachable float_repr s ->
  forall (i : nat) (prev b : block),
    chain s !! i = Some prev -> chain s !! S i = Some b ->
    exists (s0 : state) (p : Z) (now : float),
      valid_proof (dumps float_repr true (block_dict s0 prev)) p = true /\
      b = Block (Z.of_nat (S i) + 1) p now (current_transactions s0)
                (VStr (hash float_repr (block_dict s0 prev))) /\
      block_dict s prev = block_dict s0 prev.
Proof.
  induction 1 as [now|s data now Hreach IH|s a c n Hreach IH];
    intros i prev b Hprev Hb.
  - by destruct i.
  - pose proof (well_formed_reachable float_repr s Hreach) as Hwf.
    destruct (mine_state float_repr s data now)
      as [Hsame|(p & id & lb & Hp & Hid & Hlast & Hok & Hstate)].
    { rewrite Hsame in *. by apply IH. }
    rewrite Hstate, chain_new_transaction, chain_new_block in Hprev, Hb.
    rewrite Hstate.
    apply lookup_app_Some in Hb as [Hb|[Hlen Hb]].
    + assert (chain s !! i = Some prev) as Hprev'.
      { rewrite lookup_app_l in Hprev; [done|].
        apply lookup_lt_Some in Hb. lia. }
      destruct (IH i prev b Hprev' Hb) as (s0 & p0 & now0 & ? & ? & Hdict).
      exists s0, p0, now0. split; [done|]. split; [done|].
      rewrite <- Hdict, <- Hstate. apply block_dict_mine; [done|].
      by eapply list_elem_of_lookup_2.
    + apply list_lookup_singleton_Some in Hb as [Hi <-].
      assert (length (chain s) = S i) as Hlen' by lia.
      assert (prev = lb) as ->.
      { rewrite last_lookup, Hlen' in Hlast. simpl in Hlast.
        rewrite lookup_app_l in Hprev by lia. congruence. }
      exists s, p, now. split; [done|]. split; [by rewrite Hlen'|].
      rewrite <- Hstate. apply block_dict_mine; [done|].
      rewrite last_lookup in Hlast. by eapply list_elem_of_lookup_2.
  - pose proof (well_formed_reachable float_repr s Hreach) as Hwf.
    rewrite chain_new_transaction in Hprev, Hb.
    destruct (IH i prev b Hprev Hb) as (s0 & p0 & now0 & ? & ? & Hdict).
    exists s0, p0, now0. split; [done|]. split; [done|].
    rewrite <- Hdict. apply block_dict_new_transaction; [done|].
    by eapply list_elem_of_lookup_2.
Qed.

(** X13. In a ledger whose blocks were added by [mine], the proof of every
    block but the first passes [valid_proof] on the text of the block
    before it, as that block reads now. *)
Theorem proof_of_work_invariant (s : state) (i : nat) (prev b : block) :
  reachable float_repr s ->
  chain s !! i = Some prev -> chain s !! S i = Some b ->
  valid_proof (dumps float_repr true (block_dict s prev)) (proof b) = true.
Proof.
  intros Hreach Hprev Hb.
  destruct (mined_pair s Hreach i prev b Hprev Hb)
    as (s0 & p & now & Hok & -> & ->).
  exact Hok.
Qed.

(** X14. In a ledger whose blocks were added by [mine], the
    [previous_hash] of every block but the first is a string of 64
    lowercase hexadecimal characters, never [None] and never an integer. *)
Theorem previous_hash_is_digest (s : state) (i : nat) (b : block) :
  reachable float_repr s ->
  chain s !! S i = Some b ->
  exists h : string,
    previous_hash b = VStr h /\
    String.length h = 64%nat /\
    Forall (fun c => lower_hex c = true) (list_ascii_of_string h).
Proof.
  intros Hreach Hb.
  destruct (chain s !! i) as [prev|] eqn:Hprev.
  - destruct (mined_pair s Hreach i prev b Hprev Hb)
      as (s0 & p & now & _ & -> & _).
    eexists. split; [reflexivity|]. split.
    + apply length_hexdigest.
    + apply hex_lower.
  - apply lookup_ge_None in Hprev. apply lookup_lt_Some in Hb. lia.
Qed.

End Engine.

(** ** The difficulty in bits *)

Lemma hexchar_zero (d : Z) :
  0 <= d < 16 -> SHA256.hexchar d = "0"%char <-> d = 0.
Proof.
  intros Hd.
  assert (d = 0 \/ d = 1 \/ d = 2 \/ d = 3 \/ d = 4 \/ d = 5 \/ d = 6 \/ d = 7
          \/ d = 8 \/ d = 9 \/ d = 10 \/ d = 11 \/ d = 12 \/ d = 13 \/ d = 14
          \/ d = 15) as Hcases by lia.
  repeat (destruct Hcases as [-> | Hcases]; [by split|]).
  by subst.
Qed.

Lemma hex_byte_zero (b : Z) :
  0 <= b < 256 ->
  SHA256.hexchar (b / 16 mod 16) = "0"%char /\
  SHA256.hexchar (b mod 16) = "0"%char <-> b = 0.
Proof.
  intros Hb.
  rewrite !hexchar_zero by (apply Z.mod_pos_bound; lia).
  pose proof (Z.div_mod b 16 ltac:(lia)) as Hdm.
  pose proof (Z.mod_pos_bound b 16 ltac:(lia)) as Hm.
  assert (0 <= b / 16 < 16) as Hq
    by (split; [apply Z.div_pos; lia | apply Z.div_lt_upper_bound; lia]).
  rewrite (Z.mod_small (b / 16)) by done.
  split; [intros [??]; lia | intros ->; done].
Qed.

Lemma be_bytes_range (k : nat) (x : Z) :
  Forall (fun b => 0 <= b < 256) (SHA256.be_bytes k x).
Proof.
  induction k as [|k IH]; simpl; constructor; [|done].
  apply Z.mod_pos_bound. lia.
Qed.

Lemma digest_range (msg : list Z) :
  Forall (fun b => 0 <= b < 256) (SHA256.digest msg).
Proof.
  unfold SHA256.digest. cbv zeta.
  repeat (apply Forall_app; split); apply be_bytes_range.
Qed.

Lemma hex_three_zero_bytes (bs : list Z) :
  Forall (fun b => 0 <= b < 256) bs -> (3 <= length bs)%nat ->
  String.eqb (slice_to 6 (SHA256.hex bs)) "000000" = true <->
  take 3 bs = [0; 0; 0].
Proof.
  intros Hrange Hlen.
  destruct bs as [|b0 [|b1 [|b2 bs]]]; simpl in Hlen; try lia.
  apply Forall_cons in Hrange as [H0 Hrange].
  apply Forall_cons in Hrange as [H1 Hrange].
  apply Forall_cons in Hrange as [H2 _].
  pose proof (hex_byte_zero b0 H0) as E0.
  pose proof (hex_byte_zero b1 H1) as E1.
  pose proof (hex_byte_zero b2 H2) as E2.
  unfold slice_to. cbn [SHA256.hex substring take].
  rewrite String.eqb_eq. split.
  - intros [= A0 B0 A1 B1 A2 B2 _].
    rewrite (proj1 E0), (proj1 E1), (proj1 E2) by done. reflexivity.
  - intros [= -> -> ->]. by destruct (SHA256.hex bs).
Qed.

(** X15. The difficulty of [valid_proof] is 24 bits: a proof is valid
    exactly when the first three bytes of the SHA-256 digest are zero. *)
Theorem valid_proof_leading_bytes (s : string) (p : Z) :
  valid_proof s p = true <->
  take 3 (SHA256.digest (encode (s ++ str_int p))) = [0; 0; 0].
Proof.
  unfold valid_proof, SHA256.hexdigest. apply hex_three_zero_bytes.
  - apply digest_range.
  - rewrite length_digest. lia.
Qed.

(** ** Insertion order at every level *)

Section NestedOrder.

Context {float : Type} (float_repr : float -> string).

Abbreviation json := (@json float).
Abbreviation state := (@state float).
Abbreviation block := (@block float).

Lemma dumps_transaction_order (t : transaction) (d : list (string * json)) :
  d ≡ₚ [("sender", JStr (sender t)); ("recipient", JStr (recipient t));
        ("amount", JInt (amount t))] ->
  dumps float_repr true (JDict d)
  = dumps float_repr true (transaction_dict t).
Proof.
  intros Hperm. symmetry. apply dumps_insertion_order; [|done].
  csimpl.
  repeat (apply NoDup_cons; split;
          [rewrite ?elem_of_cons, elem_of_nil; intuition discriminate|]).
  apply NoDup_nil_2.
Qed.

Lemma dumps_transactions_order (ts : list transaction)
    (ds : list (list (string * json))) :
  Forall2 (fun d t =>
             d ≡ₚ [("sender", JStr (sender t));
                   ("recipient", JStr (recipient t));
                   ("amount", JInt (amount t))]) ds ts ->
  dumps float_repr true (JList (List.map JDict ds))
  = dumps float_repr true (JList (List.map transaction_dict ts)).
Proof.
  intros Hall.
  change (dumps float_repr true (JList ?l))
    with ("[" ++ join ", " (List.map (dumps float_repr true) l) ++ "]").
  do 3 f_equal. rewrite !List.map_map.
  induction Hall as [|d t ds ts Hd _ IH]; [done|].
  cbn [List.map]. by rewrite IH, (dumps_transaction_order t d).
Qed.

(** X16. The hash of a block does not depend on the order in which the
    fields were inserted, neither in the block dict nor in any of the
    transaction dicts it holds. *)
Theorem hash_nested_order (s : state) (b : block)
    (ds : list (list (string * json))) (d : list (string * json)) :
  Forall2 (fun dt t =>
             dt ≡ₚ [("sender", JStr (sender t));
                    ("recipient", JStr (recipient t));
                    ("amount", JInt (amount t))])
          ds (contents s (transactions b)) ->
  d ≡ₚ [("index", JInt (index b));
        ("proof", JInt (proof b));
        ("timestamp", JFloat (timestamp b));
        ("transactions", JList (List.map JDict ds));
        ("previous_hash", value_json (previous_hash b))] ->
  hash float_repr (JDict d) = hash float_repr (block_dict s b).
Proof.
  intros Hds Hd. unfold hash. do 2 f_equal.
  symmetry in Hd.
  rewrite <- (fun Hnd => dumps_insertion_order float_repr _ d Hnd Hd).
  2:{ csimpl.
      repeat (apply NoDup_cons; split;
              [rewrite ?elem_of_cons, elem_of_nil; intuition discriminate|]).
      apply NoDup_nil_2. }
  unfold block_dict, block_items, transactions_json.
  rewrite !dumps_dict. cbn [List.map fst snd].
  by rewrite (dumps_transactions_order _ ds Hds).
Qed.

End NestedOrder.

(** ** The concrete ledger again *)

Example run_first_mine :
  run whole_repr [CallMine first_request 1572854460] (init 1572854400)
  = after_first.
Proof. vm_compute. reflexivity. Qed.

Example run_two_mines :
  run whole_repr
      [CallMine first_request 1572854460; CallMine second_request 1572854520]
      (init 1572854400)
  = after_second.
Proof. vm_compute. reflexivity. Qed.

Lemma new_transaction_empty_chain_witness :
  fst (new_transaction "alice" "bob" 5 (@empty Z)) = Raise IndexError /\
  pending (snd (new_transaction "alice" "bob" 5 (@empty Z)))
  = [Transaction "alice" "bob" 5].
Proof.
  destruct (new_transaction_empty_chain (@empty Z) "alice" "bob" 5)
    as (H1 & H2 & _).
  - repeat split; repeat constructor.
  - reflexivity.
  - split; assumption.
Defined.

Lemma sealed_block_immutable_witness :
  block_dict
    (run whole_repr
         [CallNewTransaction "alice" "bob" 5;
          CallMine second_request 1572854520]
         (run whole_repr [CallMine first_request 1572854460]
              (init 1572854400)))
    second_block
  = block_dict
      (run whole_repr [CallMine first_request 1572854460] (init 1572854400))
      second_block.
Proof.
  apply (proj2 (sealed_block_immutable whole_repr 1572854400
                  [CallMine first_request 1572854460]
                  [CallNewTransaction "alice" "bob" 5;
                   CallMine second_request 1572854520]
                  second_block
                  ltac:(rewrite run_first_mine;
                        apply (list_elem_of_lookup_2 _ 1%nat);
                        reflexivity))).
Defined.

Lemma mine_appends_iff_valid_witness :
  chain (snd (mine whole_repr first_request 1572854460 fresh))
  <> chain fresh.
Proof.
  apply (proj2 (proj1 (mine_appends_iff_valid whole_repr fresh first_request
                         1572854460 genesis eq_refl))).
  exists 393220, "node123".
  split; [reflexivity|]. split; [reflexivity|]. vm_compute. reflexivity.
Defined.

Lemma no_shared_transactions_witness :
  0%nat ∉ items after_second (current_transactions after_second).
Proof.
  pose proof (no_shared_transactions whole_repr 1572854400
                [CallMine first_request 1572854460;
                 CallMine second_request 1572854520]
                2%nat third_block 0%nat) as Hsep.
  rewrite run_two_mines in Hsep. apply Hsep.
  - reflexivity.
  - apply list_elem_of_here.
Defined.

Lemma proof_of_work_invariant_witness :
  valid_proof (dumps whole_repr true (block_dict after_second second_block))
              (proof third_block)
  = true.
Proof.
  apply (proof_of_work_invariant whole_repr after_second 1%nat second_block
           third_block reachable_after_second); reflexivity.
Defined.

Lemma previous_hash_is_digest_witness :
  exists h : string,
    previous_hash third_block = VStr h /\
    String.length h = 64%nat /\
    Forall (fun c => lower_hex c = true) (list_ascii_of_string h).
Proof.
  apply (previous_hash_is_digest whole_repr after_second 1%nat third_block
           reachable_after_second).
  reflexivity.
Defined.

Lemma hash_nested_order_witness :
  hash whole_repr
       (JDict
          (rev [("index", JInt 3);
                ("proof", JInt 14784253);
                ("timestamp", JFloat 1572854520);
                ("transactions",
                 JList [JDict [("amount", JInt 1); ("sender", JStr "0");
                               ("recipient", JStr "node123")]]);
                ("previous_hash",
                 value_json (previous_hash third_block))]))
  = hash whole_repr (block_dict after_second third_block).
Proof.
  apply (hash_nested_order whole_repr after_second third_block
           [[("amount", JInt 1); ("sender", JStr "0");
             ("recipient", JStr "node123")]]).
  - change (contents after_second (transactions third_block))
      with [Transaction "0" "node123" 1].
    constructor; [|constructor].
    apply (Permutation_cons_append
             [("sender", JStr "0"); ("recipient", JStr "node123")]).
  - symmetry. apply Permutation_rev.
Defined.
